(** * A shallow embedding of the raytracer's rendering core.

    Floating-point numbers ([f64]) are idealised as real numbers [R].
    A Rust panic (a failed [assert!], an [unwrap]/[expect] on [None]) is
    the [Panic] outcome of the small error monad [Result] below; Rust
    [Option] return values stay [option]. *)

From Stdlib Require Import Reals Lra Lia ZArith List Permutation Arith Bool Sorted.
From Stdlib Require Ascii String DecimalString.
Import ListNotations.

Open Scope R_scope.

(** ** Panics *)

Inductive Result (A : Type) : Type :=
| Ok (a : A)
| Panic.
Arguments Ok {A} a.
Arguments Panic {A}.

Definition bind {A B : Type} (m : Result A) (f : A -> Result B) : Result B :=
  match m with
  | Ok a => f a
  | Panic => Panic
  end.

Notation "'let*' x ':=' m 'in' f" := (bind m (fun x => f))
  (at level 200, x name, m at level 100, f at level 200).

(** [assert!(b)] *)
Definition assert (b : bool) : Result unit := if b then Ok tt else Panic.

(** [.unwrap()] / [.expect(..)] *)
Definition unwrap {A : Type} (o : option A) : Result A :=
  match o with
  | Some a => Ok a
  | None => Panic
  end.

(** The comparisons of [f64] used by the code, as booleans. *)
Definition Rltb (a b : R) : bool := if Rlt_dec a b then true else false.
Definition Rleb (a b : R) : bool := if Rle_dec a b then true else false.
Definition Reqb (a b : R) : bool := if Req_EM_T a b then true else false.

(** ** math/float.rs *)
Module Float.
Definition MAX_DIFF : R := 1 / 100000.
Definition EPSILON : R := MAX_DIFF.
Definition equal (a b : R) : bool := Rltb (Rabs (a - b)) MAX_DIFF.
End Float.

(** [f64::powf]; only called with a non-negative base. *)
Definition powf (x y : R) : R :=
  if Rlt_dec 0 x then Rpower x y else if Req_EM_T y 0 then 1 else 0.

(** ** math/tuple.rs *)
Record Tuple := mkTuple { x : R; y : R; z : R; w : R }.

Definition vector (x y z : R) : Tuple := mkTuple x y z 0.
Definition point (x y z : R) : Tuple := mkTuple x y z 1.
Definition ZERO : Tuple := mkTuple 0 0 0 0.
Definition ZERO_POINT : Tuple := point 0 0 0.

Definition is_point (t : Tuple) : bool := Reqb (w t) 1.
Definition is_vector (t : Tuple) : bool := Reqb (w t) 0.

Definition magnitude (t : Tuple) : R :=
  sqrt (x t ^ 2 + y t ^ 2 + z t ^ 2 + w t ^ 2).

Definition normalize (t : Tuple) : Tuple :=
  let mag := magnitude t in
  mkTuple (x t / mag) (y t / mag) (z t / mag) (w t / mag).

Definition dot (a b : Tuple) : R :=
  x a * x b + y a * y b + z a * z b + w a * w b.

Definition tadd (a b : Tuple) : Tuple :=
  mkTuple (x a + x b) (y a + y b) (z a + z b) (w a + w b).
Definition tsub (a b : Tuple) : Tuple :=
  mkTuple (x a - x b) (y a - y b) (z a - z b) (w a - w b).
Definition tneg (a : Tuple) : Tuple :=
  mkTuple (- x a) (- y a) (- z a) (- w a).
Definition tscale (a : Tuple) (r : R) : Tuple :=
  mkTuple (x a * r) (y a * r) (z a * r) (w a * r).

(** [*self - *normal * 2 * self.dot(normal)] *)
Definition reflect (v normal : Tuple) : Tuple :=
  tsub v (tscale (tscale normal 2) (dot v normal)).

(** [PartialEq for Tuple]: component-wise within [MAX_DIFF]. *)
Definition tuple_eq (a b : Tuple) : bool :=
  Float.equal (x a) (x b) && Float.equal (y a) (y b)
  && Float.equal (z a) (z b) && Float.equal (w a) (w b).

(** ** colour.rs *)
Record Colour := mkColour { red : R; green : R; blue : R }.

Definition BLACK : Colour := mkColour 0 0 0.
Definition WHITE : Colour := mkColour 1 1 1.

Definition cadd (a b : Colour) : Colour :=
  mkColour (red a + red b) (green a + green b) (blue a + blue b).
Definition cmul (a b : Colour) : Colour :=
  mkColour (red a * red b) (green a * green b) (blue a * blue b).
Definition cscale (a : Colour) (r : R) : Colour :=
  mkColour (red a * r) (green a * r) (blue a * r).
Definition cdiv (a : Colour) (r : R) : Colour :=
  mkColour (red a / r) (green a / r) (blue a / r).

(** ** math/matrix.rs *)
Record Matrix := mkMatrix { data : list R; width : nat; height : nat }.

Definition new_with_data (width height : nat) (data : list R) : Matrix :=
  mkMatrix data width height.

Definition make_index (width col row : nat) : nat := (width * row + col)%nat.

(** [self[i]] *)
Definition idx (m : Matrix) (i : nat) : R := nth i (data m) 0.
(** [self[(row, col)]] *)
Definition at2 (m : Matrix) (row col : nat) : R :=
  idx m (make_index (width m) col row).

(** [IndexMut]: [self.data[i] = v]. *)
Fixpoint list_set {A : Type} (l : list A) (i : nat) (v : A) : list A :=
  match l, i with
  | [], _ => []
  | _ :: t, O => v :: t
  | h :: t, S i' => h :: list_set t i' v
  end.
Definition set2 (m : Matrix) (row col : nat) (v : R) : Matrix :=
  mkMatrix (list_set (data m) (make_index (width m) col row) v) (width m) (height m).

(** [self.row(row).iter()] *)
Definition row (m : Matrix) (r : nat) : list R :=
  firstn (width m) (skipn (width m * r) (data m)).
(** [self.col(col).iter()] *)
Definition col (m : Matrix) (c : nat) : list R :=
  map (fun i => idx m (c + i * width m)) (seq 0 (height m)).

Definition transpose (m : Matrix) : Matrix :=
  new_with_data (width m) (height m) (flat_map (col m) (seq 0 (height m))).

Definition submatrix (m : Matrix) (r c : nat) : Matrix :=
  new_with_data (width m - 1) (height m - 1)
    (flat_map (fun r' => map (fun c' => at2 m r' c')
                              (filter (fun c' => negb (c' =? c)) (seq 0 (width m))))
              (filter (fun r' => negb (r' =? r)) (seq 0 (height m)))).

(** [iter().enumerate()] *)
Definition enumerate {A : Type} (l : list A) : list (nat * A) :=
  combine (seq 0 (length l)) l.

(** [determinate], [minor] and [cofactor] are mutually recursive in the
    source; the recursion is on the size, given here as fuel. *)
Fixpoint determinate_fuel (fuel : nat) (m : Matrix) : R :=
  match fuel with
  | O => 0
  | S f =>
    match width m, height m with
    | 2%nat, 2%nat => idx m 0 * idx m 3 - idx m 1 * idx m 2
    | _, _ =>
      fold_left Rplus
        (map (fun '(c, v) =>
                let minor := determinate_fuel f (submatrix m 0 c) in
                v * (if Nat.even (0 + c) then minor else - minor))
             (enumerate (row m 0)))
        0
    end
  end.

Definition determinate (m : Matrix) : R := determinate_fuel (S (width m)) m.
Definition minor (m : Matrix) (r c : nat) : R := determinate (submatrix m r c).
Definition cofactor (m : Matrix) (r c : nat) : R :=
  let mi := minor m r c in if Nat.even (r + c) then mi else - mi.

(** [Matrix::new(4, 4)] *)
Definition zero4 : Matrix := new_with_data 4 4 (repeat 0 16).

(** [Matrix::inverse]. The output is [Matrix::new(4, 4)]: on a larger
    input the Rust write [out[(col, row)]] past its 16 entries panics,
    where [list_set] leaves the list unchanged; the theorems about the
    result of [inverse] assume a 4x4 input. *)
Definition inverse (m : Matrix) : option Matrix :=
  let d := determinate m in
  if Reqb d 0 then None
  else
    Some (fold_left
            (fun out r =>
               fold_left (fun out c => set2 out c r (cofactor m r c / d))
                         (seq 0 (width m)) out)
            (seq 0 (height m)) zero4).

(** [From<Ref> for Tuple] *)
Definition tuple_of_ref (l : list R) : Tuple :=
  mkTuple (nth 0 l 0) (nth 1 l 0) (nth 2 l 0) (nth 3 l 0).

(** [Mul<Tuple> for Matrix] *)
Definition mul_tuple (m : Matrix) (t : Tuple) : Result Tuple :=
  let* _ := assert (height m =? 4)%nat in
  Ok (mkTuple (dot t (tuple_of_ref (row m 0))) (dot t (tuple_of_ref (row m 1)))
              (dot t (tuple_of_ref (row m 2))) (dot t (tuple_of_ref (row m 3)))).

Definition IDENTITY_4X4 : Matrix :=
  new_with_data 4 4 [1; 0; 0; 0; 0; 1; 0; 0; 0; 0; 1; 0; 0; 0; 0; 1].

(** ** math/matrix/transform.rs *)
Definition translation (x y z : R) : Matrix :=
  let base := IDENTITY_4X4 in
  let base := set2 base 0 3 x in
  let base := set2 base 1 3 y in
  set2 base 2 3 z.

Definition scaling (x y z : R) : Matrix :=
  let base := IDENTITY_4X4 in
  let base := set2 base 0 0 x in
  let base := set2 base 1 1 y in
  set2 base 2 2 z.

(** ** Iterator helpers *)

(** [iter().map(f)] driven to the end, stopping at the first panic. *)
Fixpoint mapM {A B : Type} (f : A -> Result B) (l : list A) : Result (list B) :=
  match l with
  | [] => Ok []
  | a :: l' => let* b := f a in let* bs := mapM f l' in Ok (b :: bs)
  end.

(** A [for] loop over [l] threading [a], stopping at the first panic. *)
Definition foldM {A B : Type} (f : A -> B -> Result A) (l : list B) (a : A) : Result A :=
  fold_left (fun acc b => let* a' := acc in f a' b) l (Ok a).

(** ** materials.rs *)
Record Material := mkMaterial {
  colour : Colour; ambient : R; diffuse : R; specular : R; shininess : R }.

Definition material_default : Material :=
  mkMaterial (mkColour 1 1 1) (1 / 10) (9 / 10) (9 / 10) 200.

(** ** lights.rs *)
Record PointLight := mkPointLight { intensity : Colour; position : Tuple }.

(** [Material::lighting] as materials.rs has it (no shadow flag). *)
Definition lighting_src (m : Material) (light : PointLight)
    (pt eye_vec normal_vec : Tuple) : Colour :=
  let effective_colour := cmul (colour m) (intensity light) in
  let light_vec := normalize (tsub (position light) pt) in
  let ambient_light := cscale effective_colour (ambient m) in
  let light_dot_normal := dot light_vec normal_vec in
  let '(diffuse_c, specular_c) :=
    if Rltb light_dot_normal 0 then (BLACK, BLACK)
    else
      let diffuse_c := cscale (cscale effective_colour (diffuse m)) light_dot_normal in
      let reflect_vec := reflect (tneg light_vec) normal_vec in
      let reflect_dot_eye := dot reflect_vec eye_vec in
      let specular_c :=
        if Rltb reflect_dot_eye 0 then BLACK
        else
          let factor := powf reflect_dot_eye (shininess m) in
          cscale (cscale (intensity light) (specular m)) factor in
      (diffuse_c, specular_c) in
  cadd (cadd ambient_light diffuse_c) specular_c.

(** Modelled from the spec: the six-argument [lighting(material, light,
    point, eye_vector, normal_vector, in_shadow)] that world.rs calls; the
    materials.rs under src/ only has the version without [in_shadow]
    ([lighting_src]). Spec section on lighting: "if [in_shadow], return
    [ambient] alone (diffuse/specular are zero - the light cannot reach
    the point)"; otherwise the Phong computation, where "if
    [light_dot_normal < 0] ... diffuse = specular = black" and "if
    [reflect_dot_eye <= 0], specular = black" (materials.rs tests
    [reflect_dot_eye < 0.0]). *)
Definition lighting (m : Material) (light : PointLight)
    (pt eye_vec normal_vec : Tuple) (in_shadow : bool) : Colour :=
  if in_shadow
  then cscale (cmul (colour m) (intensity light)) (ambient m)
  else
    let effective_colour := cmul (colour m) (intensity light) in
    let ambient_c := cscale effective_colour (ambient m) in
    let light_vec := normalize (tsub (position light) pt) in
    let light_dot_normal := dot light_vec normal_vec in
    let '(diffuse_c, specular_c) :=
      if Rltb light_dot_normal 0 then (BLACK, BLACK)
      else
        let diffuse_c := cscale (cscale effective_colour (diffuse m)) light_dot_normal in
        let reflect_vec := reflect (tneg light_vec) normal_vec in
        let reflect_dot_eye := dot reflect_vec eye_vec in
        let specular_c :=
          if Rleb reflect_dot_eye 0 then BLACK
          else
            let factor := powf reflect_dot_eye (shininess m) in
            cscale (cscale (intensity light) (specular m)) factor in
        (diffuse_c, specular_c) in
    cadd (cadd ambient_c diffuse_c) specular_c.

(** ** ray.rs *)
Record Ray := mkRay { origin : Tuple; direction : Tuple }.

Definition ray_new (o d : Tuple) : Result Ray :=
  let* _ := assert (is_point o) in
  let* _ := assert (is_vector d) in
  Ok (mkRay o d).

Definition ray_position (r : Ray) (dst : R) : Tuple :=
  tadd (origin r) (tscale (direction r) dst).

Definition ray_transform (r : Ray) (m : Matrix) : Result Ray :=
  let* o := mul_tuple m (origin r) in
  let* d := mul_tuple m (direction r) in
  ray_new o d.

(** ** shape.rs: the [Shape] trait object.
    [local_interception] gives the [t] values of the intersections it
    returns; every one of them is built with [Intersection::new(t, self)],
    which [intersect] below does. The id is the shape's [Uuid]. *)
Record Shape := mkShape {
  id : nat;
  transform : Matrix;
  material : Material;
  local_interception : Ray -> option (list R);
  local_normal_at : Tuple -> Tuple }.

(** intersection.rs *)
Record Intersection := mkIntersection { t : R; object : Shape }.

(** The blanket [RayIntersect for T: Shape]. *)
Definition intersect (s : Shape) (ray : Ray) : Result (option (list Intersection)) :=
  let* inv := unwrap (inverse (transform s)) in
  let* local_ray := ray_transform ray inv in
  Ok (option_map (map (fun tv => mkIntersection tv s)) (local_interception s local_ray)).

(** The default [Shape::normal_at]. *)
Definition normal_at (s : Shape) (pt : Tuple) : Result Tuple :=
  let* inverted := unwrap (inverse (transform s)) in
  let* local_point := mul_tuple inverted pt in
  let local_normal := local_normal_at s local_point in
  let* world_point := mul_tuple (transpose inverted) local_normal in
  Ok (normalize (mkTuple (x world_point) (y world_point) (z world_point) 0)).

(** ** shape/sphere.rs *)
Record Sphere := mkSphere {
  sphere_id : nat; sphere_transform : Matrix; sphere_material : Material }.

(** [Sphere::new()] (the id is the freshly drawn [Uuid]). *)
Definition sphere_new (uuid : nat) : Sphere :=
  mkSphere uuid IDENTITY_4X4 material_default.

(** The body of [Sphere::intersect] after the move into local space. *)
Definition sphere_local (ray : Ray) : option (list R) :=
  let s2r := tsub (origin ray) (point 0 0 0) in
  let a := dot (direction ray) (direction ray) in
  let b := 2 * dot (direction ray) s2r in
  let c := dot s2r s2r - 1 in
  let discriminant := b ^ 2 - 4 * a * c in
  if Rltb discriminant 0 then None
  else
    let disroot := sqrt discriminant in
    Some [(- b - disroot) / (2 * a); (- b + disroot) / (2 * a)].

Definition sphere_shape (s : Sphere) : Shape :=
  mkShape (sphere_id s) (sphere_transform s) (sphere_material s)
    sphere_local (fun p => tsub p ZERO).

(** [Sphere::intersect] *)
Definition Sphere_intersect (s : Sphere) (ray : Ray) : Result (option (list Intersection)) :=
  let* inv := unwrap (inverse (sphere_transform s)) in
  let* local_ray := ray_transform ray inv in
  Ok (option_map (map (fun tv => mkIntersection tv (sphere_shape s)))
                 (sphere_local local_ray)).

(** ** world.rs *)
Record World := mkWorld { objects : list Shape; light : list PointLight }.

(** [sort_by(|a, b| a.t.total_cmp(&b.t))]: a stable sort on [t]. *)
Fixpoint insert_by_t (i : Intersection) (l : list Intersection) : list Intersection :=
  match l with
  | [] => [i]
  | h :: tl => if Rleb (t i) (t h) then i :: h :: tl else h :: insert_by_t i tl
  end.
Definition sort_by_t (l : list Intersection) : list Intersection :=
  fold_right insert_by_t [] l.

Definition intersect_world (wo : World) (ray : Ray) : Result (list Intersection) :=
  let* xss := mapM (fun s => let* o := intersect s ray in
                             Ok (match o with Some v => v | None => [] end))
                   (objects wo) in
  Ok (sort_by_t (concat xss)).

(** [IntersectVec::hit]: [filter(t >= 0.0)] then [min_by] on [t]; [min_by]
    keeps the earlier element on ties. *)
Definition hit (xs : list Intersection) : option Intersection :=
  match filter (fun i => Rleb 0 (t i)) xs with
  | [] => None
  | i :: rest =>
    Some (fold_left (fun acc b => if Rleb (t acc) (t b) then acc else b) rest i)
  end.

(** [IntersectionComputions] with the [over_point] field world.rs reads. *)
Record IntersectionComputions := mkComps {
  comps_object : Shape;
  comps_t : R;
  comps_point : Tuple;
  eye_vector : Tuple;
  normal_vector : Tuple;
  inside : bool;
  over_point : Tuple }.

(** Modelled from the spec: the [over_point] field of
    [prepare_computations], missing from the intersection.rs under src/
    (world.rs reads [comps.over_point]). Spec: "over_point = point +
    normal * epsilon", with the (possibly flipped) normal, "this flip must
    happen before the over-point offset". The other fields follow
    intersection.rs. *)
Definition prepare_computations (i : Intersection) (ray : Ray)
    : Result IntersectionComputions :=
  let pt := ray_position ray (t i) in
  let* n := normal_at (object i) pt in
  let eye := tneg (direction ray) in
  let ins := Rltb (dot n eye) 0 in
  let nv := if ins then tneg n else n in
  Ok (mkComps (object i) (t i) pt eye nv ins (tadd pt (tscale nv Float.EPSILON))).

Definition is_shadowed_by (wo : World) (l : PointLight) (pt : Tuple) : Result bool :=
  let v := tsub (position l) pt in
  let distance := magnitude v in
  let dir := normalize v in
  let* r := ray_new pt dir in
  let* xs := intersect_world wo r in
  Ok (match hit xs with
      | Some h => Rltb (t h) distance
      | None => false
      end).



(** The colour of one light at the prepared intersection. *)
Definition light_colour (wo : World) (comps : IntersectionComputions)
    (l : PointLight) : Result Colour :=
  let* sh := is_shadowed_by wo l (over_point comps) in
  Ok (lighting (material (comps_object comps)) l (over_point comps)
               (eye_vector comps) (normal_vector comps) sh).

(** [World::shade_hit]: [map(..).reduce(|acc, c| acc + (c / count)).unwrap()]. *)
Definition shade_hit (wo : World) (comps : IntersectionComputions) : Result Colour :=
  let count := INR (length (light wo)) in
  let* cs := mapM (light_colour wo comps) (light wo) in
  match cs with
  | [] => Panic
  | c :: rest => Ok (fold_left (fun acc c => cadd acc (cdiv c count)) rest c)
  end.

(** The average the spec describes: the sum of the per-light colours
    divided by the number of lights. *)
Definition spec_average_shade (wo : World) (comps : IntersectionComputions)
    : Result Colour :=
  let* cs := mapM (light_colour wo comps) (light wo) in
  Ok (cdiv (fold_left cadd cs BLACK) (INR (length (light wo)))).

Definition colour_at (wo : World) (ray : Ray) : Result Colour :=
  let* xs := intersect_world wo ray in
  match hit xs with
  | None => Ok BLACK
  | Some h =>
    let* comps := prepare_computations h ray in
    shade_hit wo comps
  end.

(** ** [usize] arithmetic

    On a 64-bit target [usize] products and sums wrap modulo 2^64 (a
    release build; a debug build panics on the overflow instead, so the
    theorems below that depend on it assume that no overflow occurs). *)
Definition usize_modulus : Z := 18446744073709551616%Z.

Definition usize_wrap (n : Z) : nat := Z.to_nat (n mod usize_modulus).

Definition usize_mul (a b : nat) : nat := usize_wrap (Z.of_nat a * Z.of_nat b).

Definition usize_add (a b : nat) : nat := usize_wrap (Z.of_nat a + Z.of_nat b).

(** ** canvas.rs *)
Module Canvas.
Record Canvas := mkCanvas { width : nat; height : nat; data : list Colour }.

(** [Canvas::new]: filled with [Colour::default()]; the length is the
    [usize] product [width * height]. *)
Definition new (width height : nat) : Canvas :=
  mkCanvas width height (repeat BLACK (usize_mul width height)).

(** [width * y + x] in [usize]. *)
Definition make_index (width x y : nat) : nat := usize_add (usize_mul width y) x.

(** [canvas[(x, y)]]; out of range the [Vec] index panics. *)
Definition get (c : Canvas) (px py : nat) : Result Colour :=
  unwrap (nth_error (data c) (make_index (width c) px py)).

(** [canvas[(x, y)] = v] *)
Definition set (c : Canvas) (px py : nat) (v : Colour) : Result Canvas :=
  let i := make_index (width c) px py in
  if (i <? length (data c))%nat
  then Ok (mkCanvas (width c) (height c) (list_set (data c) i v))
  else Panic.
End Canvas.

(** ** camera.rs *)
Module Camera.
Record Camera := mkCamera {
  hsize : nat; vsize : nat; fov : R; transform : Matrix;
  half_width : R; half_height : R; pixel_size : R; inverse_transform : Matrix }.

Definition ray_for_pixel (cam : Camera) (px py : nat) : Result Ray :=
  let xoffset := (INR px + 1 / 2) * pixel_size cam in
  let yoffset := (INR py + 1 / 2) * pixel_size cam in
  let world_x := half_width cam - xoffset in
  let world_y := half_height cam - yoffset in
  let* pixel := mul_tuple (inverse_transform cam) (point world_x world_y (-1)) in
  let* orig := mul_tuple (inverse_transform cam) ZERO_POINT in
  let dir := normalize (tsub pixel orig) in
  ray_new orig dir.

Definition pixel_colour (cam : Camera) (wo : World) (px py : nat) : Result Colour :=
  let* ray := ray_for_pixel cam px py in colour_at wo ray.

Definition render (cam : Camera) (wo : World) : Result Canvas.Canvas :=
  foldM (fun canvas px =>
           foldM (fun canvas py =>
                    let* c := pixel_colour cam wo px py in
                    Canvas.set canvas px py c)
                 (seq 0 (vsize cam)) canvas)
        (seq 0 (hsize cam)) (Canvas.new (hsize cam) (vsize cam)).

(** [slice::chunks(n)]; a chunk size of 0 panics. *)
Fixpoint chunks_fuel {A : Type} (fuel n : nat) (l : list A) : list (list A) :=
  match fuel, l with
  | O, _ => []
  | _, [] => []
  | S f, _ => firstn n l :: chunks_fuel f n (skipn n l)
  end.
Definition chunks {A : Type} (n : nat) (l : list A) : Result (list (list A)) :=
  if (n =? 0)%nat then Panic else Ok (chunks_fuel (length l) n l).

(** The messages one worker thread sends for its chunk; a panic in the
    thread ends it, the messages it already sent stay in the channel. *)
Fixpoint thread_msgs (cam : Camera) (wo : World) (chunk : list (nat * nat))
    : list (nat * nat * Colour) :=
  match chunk with
  | [] => []
  | (px, py) :: rest =>
    match pixel_colour cam wo px py with
    | Ok c => (px, py, c) :: thread_msgs cam wo rest
    | Panic => []
    end
  end.

Definition work (cam : Camera) : list (nat * nat) :=
  flat_map (fun px => map (fun py => (px, py)) (seq 0 (vsize cam))) (seq 0 (hsize cam)).

(** [render_parallel]: the main thread receives the messages of all the
    threads in some order (every delivery order of the channel is a
    permutation of the messages sent) and writes them into the canvas.
    [render_parallel cam wo out] says that [out] is a possible outcome. *)
Definition render_parallel (cam : Camera) (wo : World) (out : Result Canvas.Canvas) : Prop :=
  match chunks (usize_mul (hsize cam) (vsize cam) / 16) (work cam) with
  | Panic => out = Panic
  | Ok cs =>
    exists received,
      Permutation received (concat (map (thread_msgs cam wo) cs)) /\
      out = foldM (fun canvas '(px, py, c) => Canvas.set canvas px py c)
                  received (Canvas.new (hsize cam) (vsize cam))
  end.
End Camera.

(** ** More of math/tuple.rs *)

(** [Tuple::cross]: panics unless both operands are vectors. *)
Definition cross (a b : Tuple) : Result Tuple :=
  if negb (is_vector a) || negb (is_vector b) then Panic
  else Ok (vector (y a * z b - z a * y b) (z a * x b - x a * z b) (x a * y b - y a * x b)).

(** ** More of math/matrix.rs *)

(** [Matrix::new_with_data] with its [assert_eq!(width * height, data.len())]
    (the [new_with_data] above leaves the check out; every matrix built
    through it satisfies it). *)
Definition new_with_data_checked (width height : nat) (data : list R) : Result Matrix :=
  let* _ := assert (width * height =? length data)%nat in
  Ok (new_with_data width height data).

(** [self.col(c).iter()] with the bounds checks of the slice
    [&self.data[c..]] and of [Ref::index]: an index past the data panics. *)
Definition col_checked (m : Matrix) (c : nat) : Result (list R) :=
  let* _ := assert (c <=? length (data m))%nat in
  mapM (fun i => unwrap (nth_error (data m) (c + i * width m))) (seq 0 (height m)).

(** [Matrix::transpose] with the checks of [col] and [new_with_data]. *)
Definition transpose_checked (m : Matrix) : Result Matrix :=
  let* cols := mapM (col_checked m) (seq 0 (height m)) in
  new_with_data_checked (width m) (height m) (concat cols).

(** [Iterator::sum] of [f64]s. *)
Definition sum (l : list R) : R := fold_left Rplus l 0.

(** [Mul for &Matrix] and [Mul for Matrix] (the same loop). [row] and
    [col] are in range for matrices whose data has [width * height]
    entries, as [new_with_data] asserts. *)
Definition mat_mul (a b : Matrix) : Result Matrix :=
  let* _ := assert (height a =? height b)%nat in
  let* _ := assert (width a =? width b)%nat in
  let data0 := repeat 0 (height a * width a) in
  let data1 :=
    fold_left (fun d c =>
      fold_left (fun d r =>
        list_set d (c + width a * r)
          (sum (map (fun '(l, r) => l * r) (combine (row a r) (col b c)))))
        (seq 0 (height a)) d)
      (seq 0 (width a)) data0 in
  new_with_data_checked (width a) (height a) data1.

(** ** More of math/matrix/transform.rs *)
Definition rotation_x (radians : R) : Matrix :=
  let out := IDENTITY_4X4 in
  let sin := sin radians in
  let cos := cos radians in
  let out := set2 out 1 1 cos in
  let out := set2 out 1 2 (- sin) in
  let out := set2 out 2 1 sin in
  set2 out 2 2 cos.

Definition rotation_y (radians : R) : Matrix :=
  let out := IDENTITY_4X4 in
  let sin := sin radians in
  let cos := cos radians in
  let out := set2 out 0 0 cos in
  let out := set2 out 0 2 sin in
  let out := set2 out 2 0 (- sin) in
  set2 out 2 2 cos.

Definition rotatation_z (radians : R) : Matrix :=
  let out := IDENTITY_4X4 in
  let sin := sin radians in
  let cos := cos radians in
  let out := set2 out 0 0 cos in
  let out := set2 out 0 1 (- sin) in
  let out := set2 out 1 0 sin in
  set2 out 1 1 cos.

Definition shearing (x_y x_z y_x y_z z_x z_y : R) : Matrix :=
  let out := IDENTITY_4X4 in
  let out := set2 out 0 1 x_y in
  let out := set2 out 0 2 x_z in
  let out := set2 out 1 0 y_x in
  let out := set2 out 1 2 y_z in
  let out := set2 out 2 0 z_x in
  set2 out 2 1 z_y.

Definition translate (m : Matrix) (x y z : R) : Result Matrix := mat_mul (translation x y z) m.
Definition scale (m : Matrix) (x y z : R) : Result Matrix := mat_mul (scaling x y z) m.
Definition rotate_x (m : Matrix) (radians : R) : Result Matrix := mat_mul (rotation_x radians) m.
Definition rotate_y (m : Matrix) (radians : R) : Result Matrix := mat_mul (rotation_y radians) m.
Definition rotate_z (m : Matrix) (radians : R) : Result Matrix := mat_mul (rotatation_z radians) m.

(** ** More of colour.rs *)

(** The floor of a real: [up r] is the least integer above [r]. *)
Definition floor (r : R) : Z := (up r - 1)%Z.

(** [f64::round]: half-way cases away from zero. *)
Definition round (r : R) : R :=
  if Rle_dec 0 r then IZR (floor (r + 1 / 2)) else - IZR (floor (- r + 1 / 2)).

(** [f64::clamp(lo, hi)] *)
Definition clamp (r lo hi : R) : R :=
  if Rlt_dec r lo then lo else if Rlt_dec hi r then hi else r.

(** [r as uN] for an [N]-bit unsigned type: truncation towards zero,
    saturating at [0] and at [2^N - 1]. *)
Definition as_uint (bits : nat) (r : R) : nat :=
  if Rle_dec r 0 then 0%nat
  else Z.to_nat (Z.min (floor r) (2 ^ Z.of_nat bits - 1)).

(** One channel of [Colour::to_ppm]:
    [(v * MAX_NUM).round().clamp(0.0, MAX_NUM) as u64] with [MAX_NUM = 255]. *)
Definition to_ppm_channel (v : R) : nat := as_uint 64 (clamp (round (v * 255)) 0 255).

(** One channel of [Colour::to_binary_ppm]: [MAX_NUM = 256], cast [as u8]. *)
Definition to_binary_ppm_channel (v : R) : nat := as_uint 8 (clamp (round (v * 256)) 0 256).

Definition to_binary_ppm (c : Colour) : list nat :=
  [to_binary_ppm_channel (red c); to_binary_ppm_channel (green c);
   to_binary_ppm_channel (blue c)].

(** ** More of canvas.rs: PPM output.
    Strings are lists of ASCII characters; the strings here hold digits,
    letters, spaces and newlines only. *)
Module PPM.
Import Ascii.AsciiSyntax String.StringSyntax.

Local Open Scope char_scope.
Definition SP : Ascii.ascii := " ".
Definition NL : Ascii.ascii := "010".

Local Open Scope string_scope.
Definition P3 : list Ascii.ascii := String.list_ascii_of_string "P3".
Definition S255 : list Ascii.ascii := String.list_ascii_of_string "255".
Close Scope string_scope.
Close Scope char_scope.

(** [{}] of an unsigned integer: its decimal digits. *)
Definition show_nat (n : nat) : list Ascii.ascii :=
  String.list_ascii_of_string (DecimalString.NilZero.string_of_uint (Nat.to_uint n)).

(** [char::is_whitespace] on ASCII: tab, line feed, vertical tab, form
    feed, carriage return and space. *)
Definition is_whitespace (a : Ascii.ascii) : bool :=
  let n := Ascii.nat_of_ascii a in
  ((9 <=? n) && (n <=? 13) || (n =? 32))%nat.

(** [str::split_whitespace]; [cur] is the reversed token being read. *)
Fixpoint split_ws (s cur : list Ascii.ascii) : list (list Ascii.ascii) :=
  match s with
  | [] => match cur with [] => [] | _ => [rev cur] end
  | a :: s' =>
    if is_whitespace a
    then match cur with [] => split_ws s' [] | _ => rev cur :: split_ws s' [] end
    else split_ws s' (a :: cur)
  end.
Definition split_whitespace (s : list Ascii.ascii) : list (list Ascii.ascii) := split_ws s [].

(** [Colour::to_ppm]: [format!("{} {} {}", r, g, b)]. *)
Definition Colour_to_ppm (c : Colour) : list Ascii.ascii :=
  show_nat (to_ppm_channel (red c)) ++ [SP] ++ show_nat (to_ppm_channel (green c))
  ++ [SP] ++ show_nat (to_ppm_channel (blue c)).

(** [format!("P3\n{} {}\n255\n", width, height)] *)
Definition header (width height : nat) : list Ascii.ascii :=
  P3 ++ [NL] ++ show_nat width ++ [SP] ++ show_nat height ++ [NL] ++ S255 ++ [NL].

(** One turn of the loop of [into_ppm] on the [i]-th token [c]; the state
    is [(out, size)]. [String::pop] is [removelast]. The [||] does not
    evaluate the remainder when the line is full; a remainder by zero
    panics. *)
Definition ppm_step (width : nat) (st : list Ascii.ascii * nat) (ic : nat * list Ascii.ascii)
    : Result (list Ascii.ascii * nat) :=
  let '(out, size) := st in
  let '(i, c) := ic in
  let next_len := (size + length c + 1)%nat in
  let* brk := if (70 <=? next_len)%nat then Ok true
              else if (width * 3 =? 0)%nat then Panic
              else Ok (i mod (width * 3) =? 0)%nat in
  let '(out, size) := if brk then (removelast out ++ [NL], 0%nat) else (out, size) in
  Ok (out ++ c ++ [SP], (size + length c + 1)%nat).

(** [Canvas::into_ppm] *)
Definition into_ppm (cv : Canvas.Canvas) : Result (list Ascii.ascii) :=
  let stream := flat_map (fun col => split_whitespace (Colour_to_ppm col)) (Canvas.data cv) in
  let* st := foldM (ppm_step (Canvas.width cv)) (enumerate stream)
                   (header (Canvas.width cv) (Canvas.height cv), 0%nat) in
  Ok (removelast (fst st)).

(** The segments of a string between its ['\n'] characters. *)
Fixpoint split_lines (s cur : list Ascii.ascii) : list (list Ascii.ascii) :=
  match s with
  | [] => [rev cur]
  | a :: s' => if Ascii.eqb a NL then rev cur :: split_lines s' [] else split_lines s' (a :: cur)
  end.
Definition lines (s : list Ascii.ascii) : list (list Ascii.ascii) := split_lines s [].

(** Tokens written on one line, separated by single spaces. *)
Fixpoint join (ts : list (list Ascii.ascii)) : list Ascii.ascii :=
  match ts with
  | [] => []
  | [t] => t
  | t :: ts' => t ++ SP :: join ts'
  end.

(** Lines of tokens, each started by a line feed. *)
Definition body (ls : list (list (list Ascii.ascii))) : list Ascii.ascii :=
  concat (map (fun ln => NL :: join ln) ls).
End PPM.

(** [Canvas::new_with_colour] *)
Definition new_with_colour (width height : nat) (base_colour : Colour) : Canvas.Canvas :=
  Canvas.mkCanvas width height (repeat base_colour (usize_mul width height)).

(** ** More of camera.rs *)

(** [Camera::new_with_transform]; [expect] panics on a transform without
    an inverse. With [vsize = 0] the [f64] aspect ratio is infinite (or
    NaN when [hsize = 0] too), and with [hsize = 0] the pixel size is
    NaN; the real division [x / 0 = 0] does not model these values, so
    the theorems about the camera's fields assume [0 < hsize] and
    [0 < vsize]. *)
Definition new_with_transform (hsize vsize : nat) (fov : R) (transform : Matrix)
    : Result Camera.Camera :=
  let half_view := tan (fov / 2) in
  let aspect_ratio := INR hsize / INR vsize in
  let '(half_width, half_height) :=
    if Rle_dec 1 aspect_ratio then (half_view, half_view / aspect_ratio)
    else (half_view * aspect_ratio, half_view) in
  let pixel_size := half_width * 2 / INR hsize in
  let* inv := unwrap (inverse transform) in
  Ok (Camera.mkCamera hsize vsize fov transform half_width half_height pixel_size inv).

(** [Camera::new] *)
Definition camera_new (hsize vsize : nat) (fov : R) : Result Camera.Camera :=
  new_with_transform hsize vsize fov IDENTITY_4X4.

(** ** shape/plane.rs *)
Record Plane := mkPlane {
  plane_id : nat; plane_transform : Matrix; plane_material : Material }.

(** [Plane::new] (the id is the freshly drawn [Uuid]). *)
Definition plane_new (uuid : nat) (transform : Matrix) (material : Material) : Plane :=
  mkPlane uuid transform material.

(** [Plane::local_interception] *)
Definition plane_local (ray : Ray) : option (list R) :=
  if Rltb (Rabs (y (direction ray))) Float.EPSILON then None
  else Some [- y (origin ray) / y (direction ray)].

(** A [Plane] as a [Shape]: [local_normal_at] is [vectori(0, 1, 0)]. *)
Definition plane_shape (p : Plane) : Shape :=
  mkShape (plane_id p) (plane_transform p) (plane_material p)
    plane_local (fun _ => vector 0 1 0).

(** * Proofs *)

(** Settles the comparisons of concrete reals left in a goal. *)
Ltac rdec :=
  repeat (match goal with
          | |- context [Rle_dec ?a ?b] => destruct (Rle_dec a b)
          | |- context [Rlt_dec ?a ?b] => destruct (Rlt_dec a b)
          | |- context [Req_EM_T ?a ?b] => destruct (Req_EM_T a b)
          end; cbn [t x y z w red green blue] in *; try (exfalso; lra)).

Lemma Rleb_true a b : a <= b -> Rleb a b = true.
Proof. unfold Rleb; destruct (Rle_dec a b); [reflexivity | contradiction]. Qed.

Lemma Rleb_false a b : b < a -> Rleb a b = false.
Proof. unfold Rleb; destruct (Rle_dec a b); [lra | reflexivity]. Qed.

Lemma Rleb_spec a b : Rleb a b = true <-> a <= b.
Proof. unfold Rleb; destruct (Rle_dec a b); split; intro; (lra || discriminate || reflexivity). Qed.

Lemma Rltb_spec a b : Rltb a b = true <-> a < b.
Proof. unfold Rltb; destruct (Rlt_dec a b); split; intro; (lra || discriminate || reflexivity). Qed.

Lemma Rdiv_0_l' r : 0 / r = 0.
Proof. unfold Rdiv; apply Rmult_0_l. Qed.

Lemma float_equal_refl a : Float.equal a a = true.
Proof.
  unfold Float.equal, Float.MAX_DIFF. apply Rltb_spec.
  rewrite Rminus_diag, Rabs_R0. lra.
Qed.

Lemma tuple_eq_refl v : tuple_eq v v = true.
Proof. unfold tuple_eq; rewrite !float_equal_refl; reflexivity. Qed.

(** ** Matrices *)

Lemma div_comb (r0 r1 r2 r3 c0 c1 c2 c3 d tv : R) :
  d <> 0 -> r0 * c0 + r1 * c1 + r2 * c2 + r3 * c3 = d * tv ->
  r0 * (c0 / d) + r1 * (c1 / d) + r2 * (c2 / d) + r3 * (c3 / d) = tv.
Proof.
  intros Hd E. apply (Rmult_eq_reg_l d); [|exact Hd].
  rewrite <- E. field. exact Hd.
Qed.

(** [inverse] inverts: the cofactor expansion is exact over the reals. *)
Lemma inverse_mul_exact (a0 a1 a2 a3 a4 a5 a6 a7 a8 a9 a10 a11 a12 a13 a14 a15 : R)
    (tp : Tuple) :
  let m := mkMatrix [a0;a1;a2;a3;a4;a5;a6;a7;a8;a9;a10;a11;a12;a13;a14;a15] 4 4 in
  determinate m <> 0 ->
  match inverse m with
  | Some inv => (let* u := mul_tuple m tp in mul_tuple inv u) = Ok tp
  | None => False
  end.
Proof.
  intros m Hd.
  unfold inverse, Reqb. destruct (Req_EM_T (determinate m) 0) as [E|_]; [contradiction|].
  subst m. destruct tp as [t0 t1 t2 t3].
  vm_compute in Hd. vm_compute.
  f_equal; f_equal; (apply div_comb; [exact Hd | ring]).
Qed.

Lemma mul_identity v : mul_tuple IDENTITY_4X4 v = Ok v.
Proof. destruct v as [a b c d]. vm_compute. f_equal; f_equal; ring. Qed.

Lemma inverse_identity : inverse IDENTITY_4X4 = Some IDENTITY_4X4.
Proof.
  unfold inverse, Reqb. destruct (Req_EM_T (determinate IDENTITY_4X4) 0) as [E|_].
  - vm_compute in E. lra.
  - vm_compute. f_equal. f_equal. repeat f_equal; field; lra.
Qed.

(** C8: for every 4x4 matrix [m] with a non-zero determinant and every
    tuple [tp], [m.inverse()] exists and [m.inverse() * (m * tp)] equals
    [tp] under the tolerant tuple equality (over the reals it is even the
    same tuple). *)
Theorem inverse_mul_roundtrip (m : Matrix) (tp : Tuple) :
  width m = 4%nat -> height m = 4%nat -> length (data m) = 16%nat ->
  determinate m <> 0 ->
  exists inv v, inverse m = Some inv /\
    (let* u := mul_tuple m tp in mul_tuple inv u) = Ok v /\
    tuple_eq v tp = true.
Proof.
  destruct m as [d wd ht]; cbn [width height data]; intros -> -> Hl Hd.
  do 16 (destruct d as [|? d]; [discriminate|]).
  destruct d; [|discriminate].
  pose proof (inverse_mul_exact _ _ _ _ _ _ _ _ _ _ _ _ _ _ _ _ tp Hd) as H.
  destruct (inverse _) as [inv|]; [|contradiction].
  exists inv, tp. split; [reflexivity|]. split; [exact H | apply tuple_eq_refl].
Qed.

Lemma inverse_mul_roundtrip_witness :
  exists inv v, inverse (translation 1 2 3) = Some inv /\
    (let* u := mul_tuple (translation 1 2 3) (point 4 5 6) in mul_tuple inv u) = Ok v /\
    tuple_eq v (point 4 5 6) = true.
Proof.
  apply inverse_mul_roundtrip; try reflexivity.
  vm_compute. lra.
Defined.

Lemma translation_mul_vector (a b c : R) (v : Tuple) :
  w v = 0 -> mul_tuple (translation a b c) v = Ok v.
Proof.
  destruct v as [vx vy vz vw]; cbn [w]; intros ->.
  vm_compute. f_equal. f_equal; ring.
Qed.

Lemma translation_mul_w (a b c : R) (v : Tuple) :
  exists v', mul_tuple (translation a b c) v = Ok v' /\ w v' = w v.
Proof.
  destruct v as [vx vy vz vw]. eexists. split; [vm_compute; reflexivity|].
  cbn. ring.
Qed.

(** C10: a translation matrix times a vector (a tuple with [w = 0]) is
    that vector; hence transforming a ray by a translation never changes
    its direction. *)
Theorem translation_fixes_vectors (a b c : R) :
  (forall v, w v = 0 -> mul_tuple (translation a b c) v = Ok v) /\
  (forall r r', ray_transform r (translation a b c) = Ok r' ->
                direction r' = direction r).
Proof.
  split; [apply translation_mul_vector|].
  intros r r'. unfold ray_transform.
  destruct (translation_mul_w a b c (origin r)) as [o [-> _]]. cbn [bind].
  destruct (translation_mul_w a b c (direction r)) as [d [Hd Hw]].
  rewrite Hd. cbn [bind]. unfold ray_new, assert.
  destruct (is_point o); [|discriminate]. cbn [bind].
  unfold is_vector, Reqb. destruct (Req_EM_T (w d) 0) as [E|]; [|discriminate].
  cbn [bind]. intros H. injection H as <-. cbn [direction].
  rewrite translation_mul_vector in Hd by congruence. congruence.
Qed.

Lemma translation_fixes_vectors_witness :
  w (vector 4 5 6) = 0 /\ mul_tuple (translation 1 2 3) (vector 4 5 6) = Ok (vector 4 5 6).
Proof.
  split; [reflexivity | apply (proj1 (translation_fixes_vectors 1 2 3)); reflexivity].
Defined.

(** ** Hit selection *)

Definition min_step (acc b : Intersection) : Intersection :=
  if Rleb (t acc) (t b) then acc else b.

Lemma min_fold_in (rest : list Intersection) (i : Intersection) :
  In (fold_left min_step rest i) (i :: rest).
Proof.
  revert i; induction rest as [|b rest IH]; intros i; cbn [fold_left].
  - now left.
  - destruct (IH (min_step i b)) as [E|E].
    + rewrite <- E. unfold min_step. destruct (Rleb (t i) (t b)); cbn; tauto.
    + cbn; tauto.
Qed.

Lemma min_fold_le (rest : list Intersection) (i : Intersection) :
  forall j, In j (i :: rest) -> t (fold_left min_step rest i) <= t j.
Proof.
  revert i; induction rest as [|b rest IH]; intros i j Hj; cbn [fold_left].
  - destruct Hj as [<-|[]]; lra.
  - assert (Hs : t (min_step i b) <= t i /\ t (min_step i b) <= t b).
    { unfold min_step, Rleb. destruct (Rle_dec (t i) (t b)); lra. }
    destruct Hj as [<-|[<-|Hj]].
    + specialize (IH (min_step i b) (min_step i b) (or_introl eq_refl)); lra.
    + specialize (IH (min_step i b) (min_step i b) (or_introl eq_refl)); lra.
    + apply IH. now right.
Qed.

Lemma hit_eq (xs : list Intersection) :
  hit xs = match filter (fun i => Rleb 0 (t i)) xs with
           | [] => None
           | i :: rest => Some (fold_left min_step rest i)
           end.
Proof. reflexivity. Qed.

(** C2: [hit] is [None] exactly when no intersection has [t >= 0];
    otherwise it is an intersection of the list whose [t] is the least
    non-negative one; for [t = 5, 7, -1, 2] the hit has [t = 2]. *)
Theorem hit_minimum (xs : list Intersection) :
  (hit xs = None <-> forall i, In i xs -> t i < 0) /\
  (forall h, hit xs = Some h ->
     In h xs /\ 0 <= t h /\ forall i, In i xs -> 0 <= t i -> t h <= t i) /\
  (forall o, option_map t (hit (map (fun tv => mkIntersection tv o) [5; 7; -1; 2]))
             = Some 2).
Proof.
  split; [|split].
  - rewrite hit_eq. split.
    + intros Hn i Hi. destruct (Rlt_dec (t i) 0) as [|Hge]; [assumption|].
      assert (Hf : In i (filter (fun i => Rleb 0 (t i)) xs)).
      { apply filter_In. split; [exact Hi | apply Rleb_true; lra]. }
      destruct (filter _ xs); [destruct Hf | discriminate].
    + intros Hall. destruct (filter _ xs) as [|i rest] eqn:Ef; [reflexivity|].
      exfalso. assert (Hi : In i (filter (fun i => Rleb 0 (t i)) xs)) by (rewrite Ef; now left).
      apply filter_In in Hi as [Hi Hle]. apply Rleb_spec in Hle.
      specialize (Hall i Hi). lra.
  - intros h. rewrite hit_eq. destruct (filter _ xs) as [|i rest] eqn:Ef; [discriminate|].
    intros H; injection H as <-.
    assert (Hin : In (fold_left min_step rest i) (filter (fun i => Rleb 0 (t i)) xs))
      by (rewrite Ef; apply min_fold_in).
    apply filter_In in Hin as [Hin Hle]. apply Rleb_spec in Hle.
    split; [exact Hin|]. split; [exact Hle|].
    intros j Hj Hj0. apply min_fold_le. rewrite <- Ef. apply filter_In.
    split; [exact Hj | now apply Rleb_true].
  - intros o. unfold hit. cbn [map filter t]. unfold Rleb. rdec. cbn. rdec. reflexivity.
Qed.

(** ** Lighting *)

(** C6: with [in_shadow = true], [lighting] is the ambient term alone:
    the effective colour (material colour times light intensity) scaled
    by the ambient coefficient, with no diffuse and no specular part. *)
Theorem lighting_in_shadow_is_ambient (m : Material) (l : PointLight)
    (pt eye_vec normal_vec : Tuple) :
  lighting m l pt eye_vec normal_vec true
  = cadd (cadd (cscale (cmul (colour m) (intensity l)) (ambient m)) BLACK) BLACK.
Proof.
  unfold lighting, cadd, BLACK. destruct (cscale _ _) as [r g b]. cbn. f_equal; ring.
Qed.

(** ** Rays and local space *)

Lemma ray_new_ok (o d : Tuple) : w o = 1 -> w d = 0 -> ray_new o d = Ok (mkRay o d).
Proof.
  intros Ho Hd. unfold ray_new, assert, is_point, is_vector, Reqb.
  rewrite Ho, Hd. destruct (Req_EM_T 1 1); [|contradiction].
  destruct (Req_EM_T 0 0); [reflexivity|contradiction].
Qed.

Lemma normalize_w (v : Tuple) : w v = 0 -> w (normalize v) = 0.
Proof. intros H. cbn. rewrite H. apply Rdiv_0_l'. Qed.

Lemma ray_transform_identity (r : Ray) :
  w (origin r) = 1 -> w (direction r) = 0 -> ray_transform r IDENTITY_4X4 = Ok r.
Proof.
  intros Ho Hd. unfold ray_transform. rewrite !mul_identity. cbn [bind].
  rewrite ray_new_ok by assumption. now destruct r.
Qed.

Definition ray0 : Ray := mkRay (point 0 0 (-5)) (vector 0 0 1).

Lemma sphere_local_ray0 : sphere_local ray0 = Some [4; 6].
Proof.
  unfold sphere_local, ray0, dot, tsub, point, vector. cbn [origin direction x y z w].
  match goal with |- context [sqrt ?d] => replace d with (2 ^ 2) by ring end.
  rewrite sqrt_pow2 by lra. unfold Rltb. rdec.
  f_equal. f_equal; [|f_equal]; field.
Qed.

Lemma Sphere_intersect_ray0 :
  Sphere_intersect (sphere_new 0) ray0
  = Ok (Some [mkIntersection 4 (sphere_shape (sphere_new 0));
              mkIntersection 6 (sphere_shape (sphere_new 0))]).
Proof.
  unfold Sphere_intersect. cbn [sphere_new sphere_transform].
  rewrite inverse_identity. cbn [unwrap bind].
  rewrite ray_transform_identity by reflexivity. cbn [bind].
  rewrite sphere_local_ray0. reflexivity.
Qed.

Lemma quadratic_root (a b c sd : R) (sgn : R) :
  a <> 0 -> sd * sd = b ^ 2 - 4 * a * c -> sgn * sgn = 1 ->
  a * ((- b + sgn * sd) / (2 * a)) ^ 2 + b * ((- b + sgn * sd) / (2 * a)) + c = 0.
Proof.
  intros Ha Hs Hg.
  replace (a * ((- b + sgn * sd) / (2 * a)) ^ 2 + b * ((- b + sgn * sd) / (2 * a)) + c)
    with (((sgn * sgn) * (sd * sd) - (b ^ 2 - 4 * a * c)) / (4 * a)) by (field; exact Ha).
  rewrite Hg, Hs. unfold Rdiv. ring.
Qed.

(** C3: after the move into local space, with [a], [b], [c] the
    coefficients the code computes: a negative discriminant gives no
    intersections; otherwise exactly two, at the two roots of the
    quadratic, the smaller first, with no filtering of tangent or
    negative roots; the ray from (0,0,-5) along (0,0,1) meets the default
    sphere at [t = 4] and [t = 6]. *)
Theorem sphere_intersect_roots (s : Sphere) (ray : Ray) (inv : Matrix) (lr : Ray) :
  inverse (sphere_transform s) = Some inv -> ray_transform ray inv = Ok lr ->
  let s2r := tsub (origin lr) (point 0 0 0) in
  let a := dot (direction lr) (direction lr) in
  let b := 2 * dot (direction lr) s2r in
  let c := dot s2r s2r - 1 in
  let disc := b ^ 2 - 4 * a * c in
  (disc < 0 -> Sphere_intersect s ray = Ok None) /\
  (0 <= disc ->
     let t1 := (- b - sqrt disc) / (2 * a) in
     let t2 := (- b + sqrt disc) / (2 * a) in
     Sphere_intersect s ray
     = Ok (Some [mkIntersection t1 (sphere_shape s); mkIntersection t2 (sphere_shape s)]) /\
     t1 <= t2 /\
     (a <> 0 -> a * t1 ^ 2 + b * t1 + c = 0 /\ a * t2 ^ 2 + b * t2 + c = 0)) /\
  Sphere_intersect (sphere_new 0) (mkRay (point 0 0 (-5)) (vector 0 0 1))
  = Ok (Some [mkIntersection 4 (sphere_shape (sphere_new 0));
              mkIntersection 6 (sphere_shape (sphere_new 0))]).
Proof.
  intros Hinv Htr s2r a b c disc.
  assert (Hloc : Sphere_intersect s ray
                 = Ok (option_map (map (fun tv => mkIntersection tv (sphere_shape s)))
                                  (sphere_local lr))).
  { unfold Sphere_intersect. rewrite Hinv. cbn [unwrap bind]. rewrite Htr. reflexivity. }
  change (sphere_local lr) with
    (if Rltb disc 0 then None
     else Some [(- b - sqrt disc) / (2 * a); (- b + sqrt disc) / (2 * a)]) in Hloc.
  split; [|split].
  - intros Hd. rewrite Hloc. unfold Rltb. destruct (Rlt_dec disc 0); [reflexivity|contradiction].
  - intros Hd t1 t2. split; [|split].
    + rewrite Hloc. unfold Rltb. destruct (Rlt_dec disc 0); [lra|reflexivity].
    + assert (Ha : 0 <= a).
      { subst a. unfold dot. nra. }
      assert (Hinv2 : 0 <= / (2 * a)).
      { destruct (Req_dec a 0) as [E|E].
        - rewrite E, Rmult_0_r, Rinv_0. lra.
        - left. apply Rinv_0_lt_compat. lra. }
      subst t1 t2. unfold Rdiv. apply Rmult_le_compat_r; [exact Hinv2|].
      pose proof (sqrt_pos disc). lra.
    + intros Ha. pose proof (sqrt_sqrt disc Hd) as Hs. subst t1 t2.
      split.
      * replace (- b - sqrt disc) with (- b + (-1) * sqrt disc) by ring.
        apply quadratic_root; [exact Ha | exact Hs | ring].
      * replace (- b + sqrt disc) with (- b + 1 * sqrt disc) by ring.
        apply quadratic_root; [exact Ha | exact Hs | ring].
  - exact Sphere_intersect_ray0.
Qed.

Lemma sphere_intersect_roots_witness :
  inverse (sphere_transform (sphere_new 0)) = Some IDENTITY_4X4 /\
  ray_transform ray0 IDENTITY_4X4 = Ok ray0 /\
  Sphere_intersect (sphere_new 0) ray0
  = Ok (Some [mkIntersection 4 (sphere_shape (sphere_new 0));
              mkIntersection 6 (sphere_shape (sphere_new 0))]).
Proof.
  assert (H1 : inverse (sphere_transform (sphere_new 0)) = Some IDENTITY_4X4)
    by exact inverse_identity.
  assert (H2 : ray_transform ray0 IDENTITY_4X4 = Ok ray0)
    by (apply ray_transform_identity; reflexivity).
  split; [exact H1|]. split; [exact H2|].
  exact (proj2 (proj2 (sphere_intersect_roots (sphere_new 0) ray0 IDENTITY_4X4 ray0 H1 H2))).
Defined.

(** ** Prepared intersections *)

(** C5: [prepare_computations] sets [inside] exactly when the surface
    normal at the hit point has a negative dot product with the eye vector
    [-direction]; the returned normal is the negated one when [inside];
    [over_point] is the hit point plus the (possibly flipped) normal
    scaled by epsilon. It panics only when [normal_at] does. *)
Theorem prepare_computations_inside (i : Intersection) (ray : Ray) :
  match prepare_computations i ray with
  | Ok c =>
    exists n, normal_at (object i) (ray_position ray (t i)) = Ok n /\
      comps_point c = ray_position ray (t i) /\
      eye_vector c = tneg (direction ray) /\
      (inside c = true <-> dot n (eye_vector c) < 0) /\
      normal_vector c = (if inside c then tneg n else n) /\
      over_point c = tadd (comps_point c) (tscale (normal_vector c) Float.EPSILON)
  | Panic => normal_at (object i) (ray_position ray (t i)) = Panic
  end.
Proof.
  unfold prepare_computations.
  destruct (normal_at (object i) (ray_position ray (t i))) as [n|] eqn:En;
    cbn [bind]; [|reflexivity].
  exists n. cbn [comps_point eye_vector inside normal_vector over_point].
  split; [reflexivity|]. split; [reflexivity|]. split; [reflexivity|].
  split; [apply Rltb_spec | split; reflexivity].
Qed.

(** ** Shadows *)

(** C7: once the shadow ray from [pt] toward the light is built and the
    world intersections along it are [xs], [is_shadowed_by] is true
    exactly when [hit xs] exists with [t] strictly below the distance to
    the light, and false otherwise (no hit, or a hit at or beyond it). *)
Theorem is_shadowed_by_spec (wo : World) (l : PointLight) (pt : Tuple)
    (r : Ray) (xs : list Intersection) :
  ray_new pt (normalize (tsub (position l) pt)) = Ok r ->
  intersect_world wo r = Ok xs ->
  exists b, is_shadowed_by wo l pt = Ok b /\
    (b = true <-> exists h, hit xs = Some h /\ t h < magnitude (tsub (position l) pt)).
Proof.
  intros Hr Hx. unfold is_shadowed_by. rewrite Hr. cbn [bind]. rewrite Hx. cbn [bind].
  eexists. split; [reflexivity|].
  destruct (hit xs) as [h|].
  - rewrite Rltb_spec. split.
    + intros H. now exists h.
    + intros [h' [E H]]. injection E as <-. exact H.
  - split; [discriminate|]. intros [h' [E _]]. discriminate.
Qed.

Definition light0 : PointLight := mkPointLight WHITE (point 0 0 (-10)).


(** ** Shading needs a light *)

Definition sphere0 : Shape := sphere_shape (sphere_new 0).

Lemma intersect_world_ray0 (ls : list PointLight) :
  intersect_world (mkWorld [sphere0] ls) ray0
  = Ok [mkIntersection 4 sphere0; mkIntersection 6 sphere0].
Proof.
  unfold intersect_world. cbn [objects mapM].
  unfold intersect, sphere0, sphere_shape, sphere_new. cbn [transform sphere_transform].
  rewrite inverse_identity. cbn [unwrap bind].
  rewrite ray_transform_identity by reflexivity. cbn [bind local_interception].
  rewrite sphere_local_ray0. cbn [option_map map bind concat app sort_by_t fold_right insert_by_t].
  unfold Rleb. cbn [t]. rdec. reflexivity.
Qed.

Lemma hit_ray0 : hit [mkIntersection 4 sphere0; mkIntersection 6 sphere0]
                 = Some (mkIntersection 4 sphere0).
Proof. unfold hit. cbn [filter t]. unfold Rleb. rdec. cbn. rdec. reflexivity. Qed.

(** From [point 0 0 a] towards [point 0 0 b] above it. *)
Lemma along_z (a b : R) :
  a < b ->
  magnitude (tsub (point 0 0 b) (point 0 0 a)) = b - a /\
  normalize (tsub (point 0 0 b) (point 0 0 a)) = vector 0 0 1.
Proof.
  intros Hab.
  assert (M : magnitude (tsub (point 0 0 b) (point 0 0 a)) = b - a).
  { unfold magnitude, tsub, point; cbn [x y z w].
    replace ((0 - 0) ^ 2 + (0 - 0) ^ 2 + (b - a) ^ 2 + (1 - 1) ^ 2) with ((b - a) ^ 2)
      by ring.
    apply sqrt_pow2. lra. }
  split; [exact M|]. unfold normalize. rewrite M.
  unfold tsub, point, vector; cbn [x y z w]. f_equal; field; lra.
Qed.

(** Lights on the far side of [sphere0] and between it and the point. *)
Definition light_far : PointLight := mkPointLight WHITE (point 0 0 10).
Definition light_near : PointLight := mkPointLight WHITE (point 0 0 (-3)).

(** From [point 0 0 (-5)] the ray towards either light is [ray0], which
    meets [sphere0] at [t = 4] and [t = 6]: the hit at [4] is closer than
    [light_far] (at distance 15) and farther than [light_near] (at
    distance 2). *)
Lemma is_shadowed_by_spec_witness :
  (exists b, is_shadowed_by (mkWorld [sphere0] [light_far]) light_far (point 0 0 (-5)) = Ok b /\
     (b = true <-> exists h, hit [mkIntersection 4 sphere0; mkIntersection 6 sphere0] = Some h /\
                             t h < magnitude (tsub (position light_far) (point 0 0 (-5))))) /\
  (exists b, is_shadowed_by (mkWorld [sphere0] [light_near]) light_near (point 0 0 (-5)) = Ok b /\
     (b = true <-> exists h, hit [mkIntersection 4 sphere0; mkIntersection 6 sphere0] = Some h /\
                             t h < magnitude (tsub (position light_near) (point 0 0 (-5))))) /\
  hit [mkIntersection 4 sphere0; mkIntersection 6 sphere0] = Some (mkIntersection 4 sphere0) /\
  magnitude (tsub (position light_far) (point 0 0 (-5))) = 15 /\
  magnitude (tsub (position light_near) (point 0 0 (-5))) = 2.
Proof.
  destruct (along_z (-5) 10 ltac:(lra)) as [Mf Nf].
  destruct (along_z (-5) (-3) ltac:(lra)) as [Mn Nn].
  split; [|split; [|split; [exact hit_ray0 | split]]].
  - apply (is_shadowed_by_spec (mkWorld [sphere0] [light_far]) light_far (point 0 0 (-5))
             ray0 [mkIntersection 4 sphere0; mkIntersection 6 sphere0]).
    + cbn [position light_far]. rewrite Nf. apply ray_new_ok; reflexivity.
    + apply intersect_world_ray0.
  - apply (is_shadowed_by_spec (mkWorld [sphere0] [light_near]) light_near (point 0 0 (-5))
             ray0 [mkIntersection 4 sphere0; mkIntersection 6 sphere0]).
    + cbn [position light_near]. rewrite Nn. apply ray_new_ok; reflexivity.
    + apply intersect_world_ray0.
  - cbn [position light_far]. rewrite Mf. ring.
  - cbn [position light_near]. rewrite Mn. ring.
Defined.

(** C9: in a world without lights [shade_hit] panics (the [reduce] over
    no lights gives [None], which is unwrapped), so [colour_at] panics on
    every ray that has a hit. *)
Theorem shade_hit_without_lights (wo : World) :
  light wo = [] ->
  (forall comps, shade_hit wo comps = Panic) /\
  (forall ray xs h, intersect_world wo ray = Ok xs -> hit xs = Some h ->
                    colour_at wo ray = Panic).
Proof.
  intros Hl.
  assert (Hs : forall comps, shade_hit wo comps = Panic).
  { intros comps. unfold shade_hit. rewrite Hl. reflexivity. }
  split; [exact Hs|].
  intros ray xs h Hx Hh. unfold colour_at. rewrite Hx. cbn [bind]. rewrite Hh.
  destruct (prepare_computations h ray); cbn [bind]; [apply Hs | reflexivity].
Qed.

Lemma shade_hit_without_lights_witness :
  intersect_world (mkWorld [sphere0] []) ray0
    = Ok [mkIntersection 4 sphere0; mkIntersection 6 sphere0] /\
  hit [mkIntersection 4 sphere0; mkIntersection 6 sphere0] = Some (mkIntersection 4 sphere0) /\
  colour_at (mkWorld [sphere0] []) ray0 = Panic.
Proof.
  split; [apply intersect_world_ray0|]. split; [exact hit_ray0|].
  apply (proj2 (shade_hit_without_lights (mkWorld [sphere0] []) eq_refl) ray0
           [mkIntersection 4 sphere0; mkIntersection 6 sphere0] (mkIntersection 4 sphere0)).
  - apply intersect_world_ray0.
  - exact hit_ray0.
Defined.

(** ** Averaging over the lights *)

Lemma normal_at_w (s : Shape) (pt n : Tuple) : normal_at s pt = Ok n -> w n = 0.
Proof.
  unfold normal_at. destruct (unwrap _); cbn [bind]; [|discriminate].
  destruct (mul_tuple _ pt); cbn [bind]; [|discriminate].
  destruct (mul_tuple _ _); cbn [bind]; [|discriminate].
  intros H; injection H as <-. apply normalize_w. reflexivity.
Qed.

Lemma prepare_over_point_w (i : Intersection) (r : Ray) (c : IntersectionComputions) :
  prepare_computations i r = Ok c -> w (origin r) = 1 -> w (direction r) = 0 ->
  w (over_point c) = 1.
Proof.
  unfold prepare_computations.
  destruct (normal_at (object i) _) as [n|] eqn:En; cbn [bind]; [|discriminate].
  apply normal_at_w in En.
  intros H Ho Hd; injection H as <-. cbn [over_point]. unfold ray_position.
  destruct (Rltb _ _); cbn; rewrite Ho, Hd, ?En; ring.
Qed.

Lemma is_shadowed_by_no_objects (wo : World) (l : PointLight) (pt : Tuple) :
  objects wo = [] -> w pt = 1 -> w (position l) = 1 -> is_shadowed_by wo l pt = Ok false.
Proof.
  intros Ho Hp Hl. unfold is_shadowed_by.
  rewrite ray_new_ok; [|exact Hp|apply normalize_w; cbn; rewrite Hp, Hl; ring].
  cbn [bind]. unfold intersect_world. rewrite Ho. reflexivity.
Qed.

Lemma powf_nonneg (a b : R) : 0 <= powf a b.
Proof.
  unfold powf, Rpower. destruct (Rlt_dec 0 a).
  - left. apply exp_pos.
  - destruct (Req_EM_T b 0); lra.
Qed.

(** The red channel of unshadowed [lighting] is at least its ambient part. *)
Lemma lighting_red_ge (m : Material) (l : PointLight) (pt e n : Tuple) :
  0 <= red (colour m) -> 0 <= red (intensity l) -> 0 <= diffuse m -> 0 <= specular m ->
  red (colour m) * red (intensity l) * ambient m <= red (lighting m l pt e n false).
Proof.
  intros Hc Hi Hd Hs. unfold lighting. cbv zeta.
  set (ldn := dot _ n).
  unfold Rltb at 1. destruct (Rlt_dec ldn 0) as [|Hn]; cbn [cadd cscale cmul red BLACK].
  - lra.
  - set (rde := dot _ e). unfold Rleb. destruct (Rle_dec rde 0); cbn [red BLACK].
    + assert (0 <= red (colour m) * red (intensity l) * diffuse m * ldn).
      { apply Rmult_le_pos; [|lra]. apply Rmult_le_pos; [|lra]. now apply Rmult_le_pos. }
      lra.
    + pose proof (powf_nonneg rde (shininess m)).
      assert (0 <= red (colour m) * red (intensity l) * diffuse m * ldn).
      { apply Rmult_le_pos; [|lra]. apply Rmult_le_pos; [|lra]. now apply Rmult_le_pos. }
      assert (0 <= red (intensity l) * specular m * powf rde (shininess m)).
      { apply Rmult_le_pos; [|lra]. now apply Rmult_le_pos. }
      cbn [red cscale]. lra.
Qed.

Lemma normal_at_sphere0 (pt : Tuple) : exists n, normal_at sphere0 pt = Ok n.
Proof.
  unfold normal_at, sphere0, sphere_shape, sphere_new. cbn [transform sphere_transform].
  rewrite inverse_identity. cbn [unwrap bind]. rewrite mul_identity. cbn [bind].
  eexists. reflexivity.
Qed.

(** Two lights with the same colour at a prepared hit of the default
    sphere on [ray0], in a world with no objects to cast shadows. *)
Definition world2 : World := mkWorld [] [light0; light0].
Definition i0 : Intersection := mkIntersection 4 sphere0.

(** C1 (the code): [shade_hit] keeps the first light's colour whole and
    divides only the others by the light count, so with two equal lights
    of colour [c] it returns [c + c/2], not the average [c]. *)
Theorem shade_hit_first_light_undivided :
  exists comps c,
    prepare_computations i0 ray0 = Ok comps /\
    shade_hit world2 comps = Ok (cadd c (cdiv c (INR 2))) /\
    spec_average_shade world2 comps = Ok (cdiv (cadd (cadd BLACK c) c) (INR 2)) /\
    1 / 10 <= red c /\
    shade_hit world2 comps <> spec_average_shade world2 comps.
Proof.
  destruct (prepare_computations i0 ray0) as [comps|] eqn:Ep.
  2:{ exfalso. unfold prepare_computations in Ep.
      destruct (normal_at_sphere0 (ray_position ray0 (t i0))) as [n En].
      unfold i0 in Ep at 1. cbn [object] in Ep. rewrite En in Ep. discriminate. }
  assert (Hw : w (over_point comps) = 1)
    by (apply (prepare_over_point_w i0 ray0); [exact Ep | reflexivity | reflexivity]).
  assert (Hsh : is_shadowed_by world2 light0 (over_point comps) = Ok false)
    by (apply is_shadowed_by_no_objects; [reflexivity | exact Hw | reflexivity]).
  set (c := lighting (material (comps_object comps)) light0 (over_point comps)
                     (eye_vector comps) (normal_vector comps) false).
  assert (Hm : mapM (light_colour world2 comps) (light world2) = Ok [c; c]).
  { cbn [light world2 mapM]. unfold light_colour. rewrite Hsh. reflexivity. }
  assert (Hc : comps_object comps = sphere0).
  { unfold prepare_computations in Ep. destruct (normal_at _ _); cbn [bind] in Ep;
      [|discriminate]. injection Ep as <-. reflexivity. }
  assert (Hred : 1 / 10 <= red c).
  { subst c. rewrite Hc.
    replace (1 / 10) with (red (colour (material sphere0)) * red (intensity light0)
                           * ambient (material sphere0)) by (cbn; ring).
    apply lighting_red_ge; cbn; lra. }
  assert (Hs : shade_hit world2 comps = Ok (cadd c (cdiv c (INR 2)))).
  { unfold shade_hit. rewrite Hm. reflexivity. }
  assert (Ha : spec_average_shade world2 comps = Ok (cdiv (cadd (cadd BLACK c) c) (INR 2))).
  { unfold spec_average_shade. rewrite Hm. reflexivity. }
  exists comps, c. split; [reflexivity|]. split; [exact Hs|]. split; [exact Ha|].
  split; [exact Hred|].
  rewrite Hs, Ha. intros E. injection E as Er _ _.
  cbn [red BLACK cadd] in Er. cbn [INR] in Er. field_simplify in Er. lra.
Qed.

(** ** Sequential and parallel rendering *)

(** ** [usize] index arithmetic *)

Lemma usize_wrap_small (n : Z) :
  (0 <= n < usize_modulus)%Z -> Z.of_nat (usize_wrap n) = n.
Proof.
  intros H. unfold usize_wrap. rewrite Z.mod_small by exact H. apply Z2Nat.id. lia.
Qed.

Lemma usize_mul_small (a b : nat) :
  (Z.of_nat a * Z.of_nat b < usize_modulus)%Z -> usize_mul a b = (a * b)%nat.
Proof.
  intros H. apply Nat2Z.inj. unfold usize_mul. rewrite usize_wrap_small by lia. lia.
Qed.

(** Without overflow, [make_index] is [width * y + x]. *)
Lemma make_index_small (w x y : nat) :
  (Z.of_nat w * Z.of_nat y + Z.of_nat x < usize_modulus)%Z ->
  Canvas.make_index w x y = (w * y + x)%nat.
Proof.
  intros H. unfold Canvas.make_index, usize_add. rewrite usize_mul_small by lia.
  apply Nat2Z.inj. rewrite usize_wrap_small by lia. lia.
Qed.

(** With overflow, [make_index] is [width * y + x] modulo 2^64. *)
Lemma make_index_mod (w x y : nat) :
  Canvas.make_index w x y
  = Z.to_nat ((Z.of_nat w * Z.of_nat y + Z.of_nat x) mod usize_modulus)%Z.
Proof.
  unfold Canvas.make_index, usize_add, usize_mul, usize_wrap. f_equal.
  rewrite Z2Nat.id by (apply Z.mod_pos_bound; reflexivity).
  rewrite Zplus_mod_idemp_l. reflexivity.
Qed.

(** C4 (the code): with fewer than 16 pixels the chunk size
    [(hsize * vsize) / 16] is 0 and [chunks(0)] panics, so every outcome
    of [render_parallel] is a panic. *)
Theorem render_parallel_small_image_panics (cam : Camera.Camera) (wo : World)
    (out : Result Canvas.Canvas) :
  (Camera.hsize cam * Camera.vsize cam < 16)%nat ->
  Camera.render_parallel cam wo out -> out = Panic.
Proof.
  intros Hs. unfold Camera.render_parallel, Camera.chunks.
  rewrite usize_mul_small by (unfold usize_modulus; lia).
  rewrite Nat.div_small by exact Hs. cbn [Nat.eqb]. exact (fun H => H).
Qed.

Definition camera1 : Camera.Camera :=
  Camera.mkCamera 1 1 (PI / 2) IDENTITY_4X4 1 1 2 IDENTITY_4X4.
Definition world_empty : World := mkWorld [] [].

Lemma render_camera1 :
  Camera.render camera1 world_empty = Ok (Canvas.mkCanvas 1 1 [BLACK]).
Proof.
  unfold Camera.render, foldM. cbn [Camera.hsize Camera.vsize camera1 seq fold_left bind].
  unfold Camera.pixel_colour, Camera.ray_for_pixel. cbn [Camera.inverse_transform camera1].
  rewrite !mul_identity. cbn [bind].
  rewrite ray_new_ok; [| reflexivity | apply normalize_w; cbn; ring].
  reflexivity.
Qed.

Lemma render_parallel_small_image_panics_witness :
  Camera.render camera1 world_empty = Ok (Canvas.mkCanvas 1 1 [BLACK]) /\
  exists out, Camera.render_parallel camera1 world_empty out /\ out = Panic.
Proof.
  split; [exact render_camera1|].
  exists Panic. assert (H : Camera.render_parallel camera1 world_empty Panic) by reflexivity.
  split; [exact H|].
  exact (render_parallel_small_image_panics camera1 world_empty Panic
           (ltac:(cbn; lia)) H).
Defined.

(** *** Rendering at least 16 pixels: both renderers agree. *)

Section Agreement.
Import Camera.

Lemma foldM_panic {A B : Type} (f : A -> B -> Result A) (l : list B) :
  fold_left (fun acc b => let* a' := acc in f a' b) l Panic = Panic.
Proof. induction l; cbn; auto. Qed.

Lemma foldM_app {A B : Type} (f : A -> B -> Result A) (l1 l2 : list B) (a : A) :
  foldM f (l1 ++ l2) a = let* a' := foldM f l1 a in foldM f l2 a'.
Proof.
  unfold foldM. rewrite fold_left_app.
  destruct (fold_left _ l1 (Ok a)); cbn [bind]; [reflexivity | apply foldM_panic].
Qed.

Lemma foldM_cons {A B : Type} (f : A -> B -> Result A) (b : B) (l : list B) (a : A) :
  foldM f (b :: l) a = let* a' := f a b in foldM f l a'.
Proof.
  unfold foldM; cbn [fold_left bind]. destruct (f a b); cbn [bind];
    [reflexivity | apply foldM_panic].
Qed.

Lemma foldM_map {A B C : Type} (g : A -> B -> Result A) (h : C -> B) (l : list C) :
  forall a, foldM g (map h l) a = foldM (fun a x => g a (h x)) l a.
Proof.
  induction l as [|x l IH]; intros a; [reflexivity|].
  cbn [map]. rewrite !foldM_cons. destruct (g a (h x)); cbn [bind]; auto.
Qed.

Lemma foldM_ext_in {A B : Type} (f g : A -> B -> Result A) (l : list B) :
  (forall b a, In b l -> f a b = g a b) -> forall a, foldM f l a = foldM g l a.
Proof.
  induction l as [|b l IH]; intros H a; [reflexivity|].
  rewrite !foldM_cons, H by (now left).
  destruct (g a b); cbn [bind]; [|reflexivity].
  apply IH. intros; apply H; now right.
Qed.

Lemma foldM_flat {A B C : Type} (st : A -> B -> C -> Result A) (l : list B) (l' : list C) :
  forall a,
  foldM (fun a b => foldM (fun a c => st a b c) l' a) l a
  = foldM (fun a '(b, c) => st a b c) (flat_map (fun b => map (fun c => (b, c)) l') l) a.
Proof.
  induction l as [|b l IH]; intros a; [reflexivity|].
  rewrite foldM_cons. cbn [flat_map]. rewrite foldM_app.
  assert (E : foldM (fun a c => st a b c) l' a
              = foldM (fun a '(b0, c) => st a b0 c) (map (fun c => (b, c)) l') a).
  { clear IH. revert a. induction l' as [|c l' IH']; intros a; [reflexivity|].
    cbn [map]. rewrite !foldM_cons. destruct (st a b c); cbn [bind]; auto. }
  rewrite <- E. destruct (foldM _ l' a); cbn [bind]; auto.
Qed.

Lemma list_set_length {A : Type} (l : list A) i v : length (list_set l i v) = length l.
Proof. revert i; induction l; intros [|i]; cbn; auto. Qed.

Lemma list_set_same {A : Type} (l : list A) i v :
  (i < length l)%nat -> nth_error (list_set l i v) i = Some v.
Proof.
  revert i; induction l as [|a l IH]; intros [|i] H; cbn in *; try lia; auto.
  apply IH. lia.
Qed.

Lemma list_set_other {A : Type} (l : list A) i j v :
  i <> j -> nth_error (list_set l i v) j = nth_error l j.
Proof.
  revert i j; induction l as [|a l IH]; intros [|i] [|j] H; cbn; auto; try lia.
  all: apply IH; lia.
Qed.

Lemma pair_dec (p q : nat * nat) : {p = q} + {p <> q}.
Proof. decide equality; apply Nat.eq_dec. Defined.

Lemma make_index_inj (h px py px' py' : nat) :
  (px < h)%nat -> (px' < h)%nat ->
  (Z.of_nat h * Z.of_nat py + Z.of_nat px < usize_modulus)%Z ->
  (Z.of_nat h * Z.of_nat py' + Z.of_nat px' < usize_modulus)%Z ->
  Canvas.make_index h px py = Canvas.make_index h px' py' -> px = px' /\ py = py'.
Proof.
  intros H1 H2 B1 B2. rewrite !make_index_small by assumption. intros E.
  assert (py = py') by (destruct (Nat.lt_total py py') as [L|[L|L]]; nia).
  subst. split; [lia | reflexivity].
Qed.

(** Every pixel index of a [w] by [h] canvas is below [w * h]. *)
Lemma pixel_index_bound (w h x y : nat) :
  (x < w)%nat -> (y < h)%nat ->
  (Z.of_nat w * Z.of_nat h < usize_modulus)%Z ->
  (Z.of_nat w * Z.of_nat y + Z.of_nat x < usize_modulus)%Z.
Proof. intros Hx Hy Hb. nia. Qed.

Variables (cam : Camera) (wo : World) (f : nat -> nat -> Colour).
Hypothesis Hpix : forall px py, (px < hsize cam)%nat -> (py < vsize cam)%nat ->
  pixel_colour cam wo px py = Ok (f px py).
Hypothesis Hsize : (Z.of_nat (hsize cam) * Z.of_nat (vsize cam) < usize_modulus)%Z.

Definition in_range (p : nat * nat) : Prop :=
  (fst p < hsize cam)%nat /\ (snd p < vsize cam)%nat.

Definition set_msg (canvas : Canvas.Canvas) (m : nat * nat * Colour) : Result Canvas.Canvas :=
  let '(px, py, c) := m in Canvas.set canvas px py c.

Definition msg (p : nat * nat) : nat * nat * Colour := (fst p, snd p, f (fst p) (snd p)).

Definition good_canvas (c : Canvas.Canvas) : Prop :=
  Canvas.width c = hsize cam /\ length (Canvas.data c) = (hsize cam * vsize cam)%nat.

Lemma work_in_range p : In p (work cam) -> in_range p.
Proof.
  unfold work. intros H. apply in_flat_map in H as [px [Hpx H]].
  apply in_map_iff in H as [py [<- Hpy]]. apply in_seq in Hpx, Hpy.
  unfold in_range; cbn; lia.
Qed.

Lemma in_range_work p : in_range p -> In p (work cam).
Proof.
  destruct p as [px py]. unfold in_range, work; cbn. intros [H1 H2].
  apply in_flat_map. exists px. split; [apply in_seq; lia|].
  apply in_map_iff. exists py. split; [reflexivity | apply in_seq; lia].
Qed.

Lemma sets_fold (L : list (nat * nat)) :
  (forall p, In p L -> in_range p) ->
  forall c0, good_canvas c0 ->
  exists c, foldM set_msg (map msg L) c0 = Ok c /\ good_canvas c /\
    forall px py, in_range (px, py) ->
      (In (px, py) L -> Canvas.get c px py = Ok (f px py)) /\
      (~ In (px, py) L -> Canvas.get c px py = Canvas.get c0 px py).
Proof.
  induction L as [|[px0 py0] L IH]; intros HL c0 Hc0.
  - exists c0. split; [reflexivity|]. split; [exact Hc0|]. intros; split; [intros []|auto].
  - destruct Hc0 as [Hw Hlen].
    assert (Hr0 : in_range (px0, py0)) by (apply HL; now left).
    destruct Hr0 as [Hx0 Hy0]; cbn [fst snd] in Hx0, Hy0.
    set (i0 := Canvas.make_index (Canvas.width c0) px0 py0).
    assert (Hi0 : (i0 < length (Canvas.data c0))%nat).
    { subst i0. rewrite Hw, Hlen, make_index_small
        by (apply (pixel_index_bound _ (vsize cam)); assumption). nia. }
    set (c1 := Canvas.mkCanvas (Canvas.width c0) (Canvas.height c0)
                 (list_set (Canvas.data c0) i0 (f px0 py0))).
    assert (Hset : set_msg c0 (msg (px0, py0)) = Ok c1).
    { cbn [set_msg msg fst snd]. unfold Canvas.set. fold i0.
      apply Nat.ltb_lt in Hi0. rewrite Hi0. reflexivity. }
    assert (Hc1 : good_canvas c1).
    { split; [exact Hw|]. cbn [Canvas.data c1]. rewrite list_set_length. exact Hlen. }
    destruct (IH (fun p Hp => HL p (or_intror Hp)) c1 Hc1) as [c [Hf [Hc Hget]]].
    exists c. cbn [map]. rewrite foldM_cons, Hset. cbn [bind].
    split; [exact Hf|]. split; [exact Hc|].
    intros px py Hr. destruct (Hget px py Hr) as [Hin Hout].
    assert (Hg1 : (px, py) <> (px0, py0) -> Canvas.get c1 px py = Canvas.get c0 px py).
    { intros Hne. unfold Canvas.get. cbn [Canvas.width Canvas.data c1].
      rewrite list_set_other; [reflexivity|]. intros E. apply Hne.
      destruct Hr as [Hx Hy]; cbn [fst snd] in Hx, Hy. subst i0.
      rewrite Hw in E.
      apply make_index_inj in E as [-> ->];
        [reflexivity | lia | lia | apply (pixel_index_bound _ (vsize cam)); assumption
        | apply (pixel_index_bound _ (vsize cam)); assumption]. }
    split.
    + intros [E|H].
      * injection E as <- <-. destruct (in_dec pair_dec (px0, py0) L)
          as [H|H]; [now apply Hin|].
        rewrite (Hout H). unfold Canvas.get. cbn [Canvas.width Canvas.data c1]. fold i0.
        rewrite list_set_same by exact Hi0. reflexivity.
      * now apply Hin.
    + intros H. rewrite Hout by (intros H'; apply H; now right).
      apply Hg1. intros E. apply H. left. congruence.
Qed.

Lemma chunks_concat {A : Type} (n : nat) (l : list A) :
  (0 < n)%nat -> concat (chunks_fuel (length l) n l) = l.
Proof.
  intros Hn. remember (length l) as k eqn:Ek.
  assert (Hk : (length l <= k)%nat) by lia. clear Ek. revert l Hk.
  induction k as [|k IH]; intros l Hk.
  - destruct l; [reflexivity | cbn in Hk; lia].
  - destruct l as [|a l']; [reflexivity|].
    cbn [chunks_fuel concat]. rewrite IH.
    + apply firstn_skipn.
    + rewrite length_skipn. cbn [length] in Hk |- *. lia.
Qed.

Lemma thread_msgs_ok (chunk : list (nat * nat)) :
  (forall p, In p chunk -> in_range p) -> thread_msgs cam wo chunk = map msg chunk.
Proof.
  induction chunk as [|[px py] rest IH]; intros H; [reflexivity|].
  cbn [thread_msgs map]. destruct (H (px, py) (or_introl eq_refl)) as [Hx Hy].
  rewrite Hpix by assumption. f_equal. apply IH. intros; apply H; now right.
Qed.

Lemma new_good : good_canvas (Canvas.new (hsize cam) (vsize cam)).
Proof.
  split; [reflexivity|]. cbn. rewrite repeat_length. apply usize_mul_small, Hsize.
Qed.

(** For images of at least 16 pixels (and fewer than 2^64) whose pixel
    colours do not panic,
    [render] and every outcome of [render_parallel] return a canvas
    holding [colour_at(ray_for_pixel(x, y))] at each pixel. *)
Lemma render_parallel_agrees_large :
  (16 <= hsize cam * vsize cam)%nat ->
  (exists c, render cam wo = Ok c /\
     forall px py, (px < hsize cam)%nat -> (py < vsize cam)%nat ->
       Canvas.get c px py = Ok (f px py)) /\
  (exists out, render_parallel cam wo out) /\
  (forall out, render_parallel cam wo out ->
     exists c, out = Ok c /\
       forall px py, (px < hsize cam)%nat -> (py < vsize cam)%nat ->
         Canvas.get c px py = Ok (f px py)).
Proof.
  intros H16.
  assert (Hn : (0 < (hsize cam * vsize cam) / 16)%nat).
  { apply Nat.div_str_pos. lia. }
  assert (Hall : forall p, In p (work cam) -> in_range p) by exact work_in_range.
  destruct (sets_fold (work cam) Hall _ new_good) as [cs [Hf [_ Hget]]].
  assert (Hfin : forall c, (forall px py, in_range (px, py) ->
                   (In (px, py) (work cam) -> Canvas.get c px py = Ok (f px py))) ->
                 forall px py, (px < hsize cam)%nat -> (py < vsize cam)%nat ->
                 Canvas.get c px py = Ok (f px py)).
  { intros c Hc px py Hx Hy. apply Hc; [split; assumption|].
    apply in_range_work. split; assumption. }
  assert (Hmsgs : forall cs', cs' = chunks_fuel (length (work cam)) ((hsize cam * vsize cam) / 16) (work cam) ->
            concat (map (thread_msgs cam wo) cs') = map msg (work cam)).
  { intros cs' Hcs.
    assert (E : concat cs' = work cam) by (rewrite Hcs; apply chunks_concat; exact Hn).
    rewrite <- E, concat_map. f_equal. apply map_ext_in. intros chunk Hch.
    apply thread_msgs_ok. intros p Hp. apply Hall.
    rewrite <- E. apply in_concat. now exists chunk. }
  unfold render_parallel, chunks. rewrite (usize_mul_small _ _ Hsize).
  assert (Hz : ((hsize cam * vsize cam) / 16 =? 0)%nat = false) by (apply Nat.eqb_neq; lia).
  rewrite Hz.
  split; [|split].
  - exists cs. split.
    + unfold render. rewrite foldM_flat. fold (work cam).
      rewrite <- Hf, foldM_map.
      apply foldM_ext_in. intros [px py] a Hp. destruct (Hall _ Hp) as [Hx Hy].
      cbn [fst snd] in *. rewrite Hpix by assumption. reflexivity.
    + apply Hfin. intros px py Hr. apply (Hget px py Hr).
  - eexists. exists (concat (map (thread_msgs cam wo)
        (chunks_fuel (length (work cam)) ((hsize cam * vsize cam) / 16) (work cam)))).
    split; [apply Permutation_refl | reflexivity].
  - intros out [received [Hp ->]].
    rewrite (Hmsgs _ eq_refl) in Hp.
    apply Permutation_map_inv in Hp as [L [-> HpL]].
    assert (HL : forall p, In p L -> in_range p)
      by (intros p Hin; apply Hall; apply (Permutation_in _ (Permutation_sym HpL)); exact Hin).
    destruct (sets_fold L HL _ new_good) as [c [HfL [_ HgetL]]].
    exists c. split; [exact HfL|].
    apply Hfin. intros px py Hr Hin. apply (HgetL px py Hr).
    apply (Permutation_in _ HpL). exact Hin.
Qed.
End Agreement.

(** * Further properties of the code *)

(** ** Tolerant float equality *)

(** [float::equal] is reflexive and symmetric but not transitive: [0]
    and [6e-6] are equal, [6e-6] and [1.2e-5] are equal, [0] and [1.2e-5]
    are not. [Tuple] and [Colour] equality, built from it, are no
    equivalences either. *)
Theorem float_equal_not_transitive :
  (forall a, Float.equal a a = true) /\
  (forall a b, Float.equal a b = Float.equal b a) /\
  Float.equal 0 (6 / 1000000) = true /\
  Float.equal (6 / 1000000) (12 / 1000000) = true /\
  Float.equal 0 (12 / 1000000) = false.
Proof.
  unfold Float.equal, Float.MAX_DIFF, Rltb.
  split; [|split; [|split; [|split]]].
  - intros a. rewrite Rminus_diag, Rabs_R0. destruct (Rlt_dec 0 (1 / 100000)); [reflexivity | lra].
  - intros a b. rewrite Rabs_minus_sym. reflexivity.
  - rewrite Rabs_left by lra. destruct (Rlt_dec _ _); [reflexivity | lra].
  - rewrite Rabs_left by lra. destruct (Rlt_dec _ _); [reflexivity | lra].
  - rewrite Rabs_left by lra. destruct (Rlt_dec _ _); [lra | reflexivity].
Qed.

(** ** Tuples *)

Lemma is_vector_true (v : Tuple) : w v = 0 -> is_vector v = true.
Proof. intros H. unfold is_vector, Reqb. rewrite H. destruct (Req_EM_T 0 0); [reflexivity | contradiction]. Qed.

(** [cross] panics unless both operands are vectors; on vectors it gives
    a vector orthogonal to both, and swapping the operands negates it. *)
Theorem cross_orthogonal (a b : Tuple) :
  ((is_vector a = false \/ is_vector b = false) -> cross a b = Panic) /\
  (w a = 0 -> w b = 0 ->
   exists c, cross a b = Ok c /\ w c = 0 /\ dot c a = 0 /\ dot c b = 0 /\
             cross b a = Ok (tneg c)).
Proof.
  split.
  - intros [H|H]; unfold cross; rewrite H; [reflexivity | now rewrite orb_true_r].
  - intros Ha Hb. unfold cross. rewrite !is_vector_true by assumption. cbn [negb orb].
    eexists. split; [reflexivity|].
    destruct a as [a1 a2 a3 a4], b as [b1 b2 b3 b4]; cbn in Ha, Hb; subst.
    unfold dot, vector, tneg; cbn. repeat split; try ring.
    f_equal; f_equal; ring.
Qed.

Lemma cross_orthogonal_witness :
  exists c, cross (vector 1 0 0) (vector 0 1 0) = Ok c /\ w c = 0 /\
    dot c (vector 1 0 0) = 0 /\ dot c (vector 0 1 0) = 0 /\
    cross (vector 0 1 0) (vector 1 0 0) = Ok (tneg c).
Proof. apply (proj2 (cross_orthogonal (vector 1 0 0) (vector 0 1 0))); reflexivity. Defined.

(** Reflecting about a unit normal flips the component along the normal
    and keeps the length: [reflect(v, n) . n = -(v . n)] and
    [|reflect(v, n)| = |v|]. *)
Theorem reflect_about_unit_normal (v n : Tuple) :
  dot n n = 1 ->
  dot (reflect v n) n = - dot v n /\ magnitude (reflect v n) = magnitude v.
Proof.
  intros Hn.
  assert (E1 : dot (reflect v n) n = dot v n - 2 * dot v n * dot n n)
    by (unfold reflect, dot, tsub, tscale; cbn; ring).
  assert (E2 : x (reflect v n) ^ 2 + y (reflect v n) ^ 2 + z (reflect v n) ^ 2 + w (reflect v n) ^ 2
               = (x v ^ 2 + y v ^ 2 + z v ^ 2 + w v ^ 2) + 4 * dot v n ^ 2 * (dot n n - 1))
    by (unfold reflect, dot, tsub, tscale; cbn; ring).
  rewrite Hn in E1, E2. split; [lra|].
  unfold magnitude. rewrite E2. f_equal. ring.
Qed.

Lemma reflect_about_unit_normal_witness :
  dot (vector 0 1 0) (vector 0 1 0) = 1 /\
  dot (reflect (vector 1 (-1) 0) (vector 0 1 0)) (vector 0 1 0) = - dot (vector 1 (-1) 0) (vector 0 1 0) /\
  magnitude (reflect (vector 1 (-1) 0) (vector 0 1 0)) = magnitude (vector 1 (-1) 0).
Proof.
  assert (H : dot (vector 0 1 0) (vector 0 1 0) = 1) by (unfold dot, vector; cbn; ring).
  split; [exact H | apply (reflect_about_unit_normal (vector 1 (-1) 0) (vector 0 1 0)); exact H].
Defined.

Lemma magnitude_sq (v : Tuple) :
  magnitude v * magnitude v = x v ^ 2 + y v ^ 2 + z v ^ 2 + w v ^ 2.
Proof.
  unfold magnitude. apply sqrt_sqrt.
  pose proof (pow2_ge_0 (x v)); pose proof (pow2_ge_0 (y v));
  pose proof (pow2_ge_0 (z v)); pose proof (pow2_ge_0 (w v)); lra.
Qed.

Lemma magnitude_unit (v : Tuple) :
  x v ^ 2 + y v ^ 2 + z v ^ 2 + w v ^ 2 = 1 -> magnitude v = 1.
Proof. intros H. unfold magnitude. rewrite H. apply sqrt_1. Qed.

(** A tuple of non-zero length normalises to length one, pointing the
    same way: [normalize(v) . v = |v|]. *)
Theorem normalize_unit (v : Tuple) :
  magnitude v <> 0 ->
  magnitude (normalize v) = 1 /\ dot (normalize v) v = magnitude v.
Proof.
  intros Hm. pose proof (magnitude_sq v) as Hs.
  split.
  - apply magnitude_unit. unfold normalize; cbn [x y z w].
    field_simplify; [|exact Hm]. rewrite <- Hs. field. exact Hm.
  - unfold normalize, dot; cbn [x y z w].
    field_simplify; [|exact Hm]. rewrite <- Hs. field. exact Hm.
Qed.

Lemma normalize_unit_witness :
  magnitude (vector 0 3 4) <> 0 /\
  magnitude (normalize (vector 0 3 4)) = 1 /\ dot (normalize (vector 0 3 4)) (vector 0 3 4) = magnitude (vector 0 3 4).
Proof.
  assert (H : magnitude (vector 0 3 4) <> 0).
  { replace (magnitude (vector 0 3 4)) with 5; [lra|].
    unfold magnitude, vector; cbn [x y z w].
    replace (0 ^ 2 + 3 ^ 2 + 4 ^ 2 + 0 ^ 2) with (5 * 5) by ring.
    rewrite sqrt_square; lra. }
  split; [exact H | apply normalize_unit; exact H].
Defined.

(** ** Matrix products and transforms *)

(** Closes an equation between two lists of reals entry by entry. *)
Ltac Rlist_eq :=
  repeat (first [reflexivity | apply (f_equal2 (@cons R)); [ring|]]).

Ltac destr16 d :=
  do 16 (destruct d as [|? d]; [discriminate|]); destruct d; [|discriminate].

(** The identity is neutral for the 4x4 product, and the product of
    matrices of different sizes panics. *)
Theorem mat_mul_identity (m : Matrix) :
  (width m = 4%nat -> height m = 4%nat -> length (data m) = 16%nat ->
   mat_mul IDENTITY_4X4 m = Ok m /\ mat_mul m IDENTITY_4X4 = Ok m) /\
  (forall b, (height m <> height b \/ width m <> width b) -> mat_mul m b = Panic).
Proof.
  split.
  - destruct m as [d wd ht]; cbn [width height data]; intros -> -> Hl.
    destr16 d. split; vm_compute; apply f_equal; apply (f_equal3 mkMatrix);
      try reflexivity; Rlist_eq.
  - intros b [H|H]; unfold mat_mul.
    + apply Nat.eqb_neq in H. rewrite H. reflexivity.
    + destruct (height m =? height b)%nat; [|reflexivity]. cbn [assert bind].
      apply Nat.eqb_neq in H. rewrite H. reflexivity.
Qed.

Lemma mat_mul_identity_witness :
  (width (translation 1 2 3) = 4%nat /\ height (translation 1 2 3) = 4%nat /\
   length (data (translation 1 2 3)) = 16%nat) /\
  (mat_mul IDENTITY_4X4 (translation 1 2 3) = Ok (translation 1 2 3) /\
   mat_mul (translation 1 2 3) IDENTITY_4X4 = Ok (translation 1 2 3)) /\
  mat_mul (translation 1 2 3) (mkMatrix [1; 2; 3; 4] 2 2) = Panic.
Proof.
  split; [repeat split; reflexivity|]. split.
  - apply (proj1 (mat_mul_identity (translation 1 2 3))); reflexivity.
  - apply (proj2 (mat_mul_identity (translation 1 2 3))). left. discriminate.
Defined.

(** Multiplying a tuple by a product of 4x4 matrices is multiplying it
    by the right factor first and then by the left one. *)
Theorem mat_mul_tuple_assoc (a b : Matrix) :
  width a = 4%nat -> height a = 4%nat -> length (data a) = 16%nat ->
  width b = 4%nat -> height b = 4%nat -> length (data b) = 16%nat ->
  exists ab, mat_mul a b = Ok ab /\
    forall tp, mul_tuple ab tp = (let* u := mul_tuple b tp in mul_tuple a u).
Proof.
  destruct a as [da wa ha], b as [db wb hb]; cbn [width height data].
  intros -> -> Ha -> -> Hb. destr16 da. destr16 db.
  eexists. split; [reflexivity|].
  intros [t0 t1 t2 t3]. vm_compute. apply f_equal.
  apply (f_equal4 mkTuple); ring.
Qed.

Lemma mat_mul_tuple_assoc_witness :
  exists ab, mat_mul (translation 1 2 3) (scaling 2 2 2) = Ok ab /\
    forall tp, mul_tuple ab tp = (let* u := mul_tuple (scaling 2 2 2) tp in
                                  mul_tuple (translation 1 2 3) u).
Proof. apply mat_mul_tuple_assoc; reflexivity. Defined.

(** [translate] and [scale] compose: translating a translation adds the
    offsets, scaling a scaling multiplies the factors. *)
Theorem translate_scale_compose (a b c d e f : R) :
  translate (translation a b c) d e f = Ok (translation (a + d) (b + e) (c + f)) /\
  scale (scaling a b c) d e f = Ok (scaling (d * a) (e * b) (f * c)).
Proof.
  split; vm_compute; apply f_equal; apply (f_equal3 mkMatrix);
    try reflexivity; Rlist_eq.
Qed.

(** Rotating a rotation about the same axis adds the angles. *)
Theorem rotate_compose (a b : R) :
  rotate_x (rotation_x a) b = Ok (rotation_x (a + b)) /\
  rotate_y (rotation_y a) b = Ok (rotation_y (a + b)) /\
  rotate_z (rotatation_z a) b = Ok (rotatation_z (a + b)).
Proof.
  unfold rotate_x, rotate_y, rotate_z, rotation_x, rotation_y, rotatation_z.
  rewrite cos_plus, sin_plus.
  generalize (cos a) (sin a) (cos b) (sin b). intros ca sa cb sb.
  split; [|split]; vm_compute; apply f_equal; apply (f_equal3 mkMatrix);
    try reflexivity; Rlist_eq.
Qed.

(** Reduces the tuple product of an exists-goal [exists v', e = Ok v' /\ _]. *)
Ltac eval_mul :=
  match goal with
  | |- exists v', ?e = Ok v' /\ _ =>
      let e' := eval vm_compute in e in change e with e'; eexists; split; [reflexivity|]
  end.

Lemma sum_sq_rot (s c p q : R) :
  s ^ 2 + c ^ 2 = 1 -> (c * p - s * q) ^ 2 + (s * p + c * q) ^ 2 = p ^ 2 + q ^ 2.
Proof.
  intros H. transitivity ((s ^ 2 + c ^ 2) * (p ^ 2 + q ^ 2)); [ring | rewrite H; ring].
Qed.

(** A rotation keeps the coordinate along its axis and [w], and keeps the
    length of every tuple. *)
Theorem rotation_isometry (r : R) (v : Tuple) :
  (exists v', mul_tuple (rotation_x r) v = Ok v' /\
     x v' = x v /\ w v' = w v /\ magnitude v' = magnitude v) /\
  (exists v', mul_tuple (rotation_y r) v = Ok v' /\
     y v' = y v /\ w v' = w v /\ magnitude v' = magnitude v) /\
  (exists v', mul_tuple (rotatation_z r) v = Ok v' /\
     z v' = z v /\ w v' = w v /\ magnitude v' = magnitude v).
Proof.
  pose proof (sin2_cos2 r) as Hsc. rewrite !Rsqr_pow2 in Hsc.
  unfold rotation_x, rotation_y, rotatation_z.
  generalize (sin r) (cos r) Hsc. clear Hsc. intros s c Hsc.
  destruct v as [a b d e].
  split; [|split]; eval_mul; cbn [x y z w]; (split; [ring|]); (split; [ring|]);
    unfold magnitude; cbn [x y z w]; f_equal.
  - pose proof (sum_sq_rot s c b d Hsc). nra.
  - pose proof (sum_sq_rot s c d a Hsc). nra.
  - pose proof (sum_sq_rot s c a b Hsc). nra.
Qed.

Ltac Rlist_eq_field :=
  repeat (first [reflexivity | apply (f_equal2 (@cons R)); [field; auto|]]).

Lemma translation_inverse_eq (a b c : R) :
  inverse (translation a b c) = Some (translation (- a) (- b) (- c)).
Proof.
  assert (Hd : determinate (translation a b c) = 1) by (vm_compute; ring).
  unfold inverse, Reqb. rewrite Hd. destruct (Req_EM_T 1 0); [lra|].
  vm_compute. apply f_equal. apply (f_equal3 mkMatrix); try reflexivity.
  Rlist_eq_field.
Qed.

(** A translation is inverted by the opposite translation. *)
Theorem translation_inverse (a b c : R) :
  inverse (translation a b c) = Some (translation (- a) (- b) (- c)).
Proof. exact (translation_inverse_eq a b c). Qed.

(** A scaling with a zero factor has no inverse (so [Sphere::intersect]
    panics on a sphere scaled by it); otherwise it is inverted by the
    reciprocal scaling. *)
Theorem scaling_inverse (a b c : R) :
  (a * b * c = 0 -> inverse (scaling a b c) = None /\
     forall u mat r, Sphere_intersect (mkSphere u (scaling a b c) mat) r = Panic) /\
  (a * b * c <> 0 -> inverse (scaling a b c) = Some (scaling (1 / a) (1 / b) (1 / c))).
Proof.
  assert (Hd : determinate (scaling a b c) = a * b * c) by (vm_compute; ring).
  assert (Hn : a * b * c = 0 -> inverse (scaling a b c) = None).
  { intros H0. unfold inverse, Reqb. rewrite Hd.
    destruct (Req_EM_T (a * b * c) 0); [reflexivity | contradiction]. }
  split.
  - intros H0. split; [exact (Hn H0)|].
    intros u mat r. unfold Sphere_intersect. cbn [sphere_transform]. rewrite (Hn H0). reflexivity.
  - intros H0.
    assert (Ha : a <> 0) by (intros ->; apply H0; ring).
    assert (Hb : b <> 0) by (intros ->; apply H0; ring).
    assert (Hc : c <> 0) by (intros ->; apply H0; ring).
    unfold inverse, Reqb. rewrite Hd.
    destruct (Req_EM_T (a * b * c) 0); [contradiction|].
    vm_compute. apply f_equal. apply (f_equal3 mkMatrix); try reflexivity.
    Rlist_eq_field.
Qed.

Lemma scaling_inverse_witness :
  (0 * 1 * 1 = 0 /\ inverse (scaling 0 1 1) = None /\
     forall u mat r, Sphere_intersect (mkSphere u (scaling 0 1 1) mat) r = Panic) /\
  (2 * 2 * 2 <> 0 /\ inverse (scaling 2 2 2) = Some (scaling (1 / 2) (1 / 2) (1 / 2))).
Proof.
  split.
  - assert (H : 0 * 1 * 1 = 0) by ring. split; [exact H | apply (proj1 (scaling_inverse 0 1 1)); exact H].
  - assert (H : 2 * 2 * 2 <> 0) by lra. split; [exact H | apply (proj2 (scaling_inverse 2 2 2)); exact H].
Defined.

(** ** Transposition *)

Lemma mapM_length {A B : Type} (f : A -> Result B) (l : list A) (bs : list B) :
  mapM f l = Ok bs -> length bs = length l.
Proof.
  revert bs; induction l as [|a l IH]; intros bs H; cbn in H.
  - injection H as <-. reflexivity.
  - destruct (f a); [|discriminate]. cbn in H.
    destruct (mapM f l) as [bs'|] eqn:E; [|discriminate]. cbn in H. injection H as <-.
    cbn. f_equal. now apply IH.
Qed.

Lemma mapM_Forall {A B : Type} (f : A -> Result B) (P : B -> Prop) (l : list A) (bs : list B) :
  (forall a b, f a = Ok b -> P b) -> mapM f l = Ok bs -> Forall P bs.
Proof.
  intros Hf. revert bs; induction l as [|a l IH]; intros bs H; cbn in H.
  - injection H as <-. constructor.
  - destruct (f a) as [b|] eqn:Ea; [|discriminate]. cbn in H.
    destruct (mapM f l) as [bs'|] eqn:E; [|discriminate]. cbn in H. injection H as <-.
    constructor; [exact (Hf a b Ea) | now apply IH].
Qed.

Lemma mapM_map_ok {A B : Type} (f : A -> Result B) (g : A -> B) (l : list A) :
  (forall a, In a l -> f a = Ok (g a)) -> mapM f l = Ok (map g l).
Proof.
  induction l as [|a l IH]; intros H; [reflexivity|]. cbn.
  rewrite (H a (or_introl eq_refl)). cbn. rewrite IH by (intros; apply H; now right).
  reflexivity.
Qed.

Lemma length_concat_uniform {A : Type} (n : nat) (L : list (list A)) :
  Forall (fun l => length l = n) L -> length (concat L) = (length L * n)%nat.
Proof.
  induction 1 as [|l L Hl _ IH]; [reflexivity|]. cbn. rewrite length_app, Hl, IH. lia.
Qed.

Lemma nth_flat_map_uniform {A B : Type} (f : A -> list B) (k : nat) (l : list A)
    (a0 : A) (d : B) (r c : nat) :
  (forall a, length (f a) = k) -> (c < k)%nat -> (r < length l)%nat ->
  nth (k * r + c) (flat_map f l) d = nth c (f (nth r l a0)) d.
Proof.
  intros Hk Hc. revert r; induction l as [|a l IH]; intros r Hr; cbn in Hr; [lia|].
  cbn [flat_map]. destruct r as [|r].
  - rewrite Nat.mul_0_r, Nat.add_0_l. apply app_nth1. now rewrite Hk.
  - rewrite app_nth2 by (rewrite Hk; lia). rewrite Hk.
    replace (k * S r + c - k)%nat with (k * r + c)%nat by lia.
    apply IH. lia.
Qed.

Lemma nth_map_seq {A : Type} (f : nat -> A) (n c : nat) (d : A) :
  (c < n)%nat -> nth c (map f (seq 0 n)) d = f c.
Proof.
  intros Hc. rewrite nth_indep with (d' := f 0%nat) by (now rewrite length_map, length_seq).
  rewrite map_nth, seq_nth by exact Hc. reflexivity.
Qed.

Lemma col_length (m : Matrix) (c : nat) : length (col m c) = height m.
Proof. unfold col. now rewrite length_map, length_seq. Qed.

Lemma square_data_ext (n : nat) (d1 d2 : list R) :
  length d1 = (n * n)%nat -> length d2 = (n * n)%nat ->
  (forall r c, (r < n)%nat -> (c < n)%nat ->
     at2 (mkMatrix d1 n n) r c = at2 (mkMatrix d2 n n) r c) ->
  d1 = d2.
Proof.
  intros L1 L2 H. apply nth_ext with (d := 0) (d' := 0); [congruence|].
  intros j Hj. rewrite L1 in Hj.
  assert (Hn : (0 < n)%nat) by (destruct n; lia).
  assert (Hj' : j = (n * (j / n) + j mod n)%nat) by (apply Nat.div_mod; lia).
  assert (Hq : (j / n < n)%nat) by (apply Nat.Div0.div_lt_upper_bound; lia).
  assert (Hr : (j mod n < n)%nat) by (apply Nat.mod_upper_bound; lia).
  specialize (H (j / n)%nat (j mod n)%nat Hq Hr). unfold at2, idx, make_index in H.
  cbn [data width] in H. rewrite <- Hj' in H. exact H.
Qed.

Lemma at2_transpose (m : Matrix) (r c : nat) :
  width m = height m -> (r < height m)%nat -> (c < height m)%nat ->
  at2 (transpose m) r c = at2 m c r.
Proof.
  intros Hw Hr Hc. unfold at2, idx, transpose, new_with_data, make_index. cbn [data width].
  rewrite Hw. rewrite (nth_flat_map_uniform (col m) (height m) (seq 0 (height m)) 0%nat 0 r c)
    by (try apply col_length; try rewrite length_seq; assumption).
  rewrite seq_nth by exact Hr. unfold col.
  rewrite nth_map_seq by exact Hc. unfold idx. f_equal. rewrite Hw. lia.
Qed.

(** [transpose] (with [col]'s bounds checks and [new_with_data]'s assert)
    panics on every non-square matrix with at least one row. On a square
    matrix it succeeds, swaps the entries [(r, c)] and [(c, r)], and
    transposing twice gives the matrix back. *)
Theorem transpose_square (m : Matrix) :
  (width m <> height m -> (0 < height m)%nat -> transpose_checked m = Panic) /\
  (width m = height m -> length (data m) = (width m * height m)%nat ->
   transpose_checked m = Ok (transpose m) /\
   (forall r c, (r < height m)%nat -> (c < height m)%nat ->
      at2 (transpose m) r c = at2 m c r) /\
   transpose (transpose m) = m).
Proof.
  split.
  - intros Hne Hh. unfold transpose_checked.
    destruct (mapM (col_checked m) (seq 0 (height m))) as [cols|] eqn:E; [|reflexivity].
    cbn [bind]. unfold new_with_data_checked, assert.
    assert (Hlen : length (concat cols) = (height m * height m)%nat).
    { rewrite (length_concat_uniform (height m)).
      - rewrite (mapM_length _ _ _ E), length_seq. reflexivity.
      - refine (mapM_Forall _ _ _ _ _ E). intros c l H.
        unfold col_checked in H. destruct (assert _); [|discriminate]. cbn in H.
        rewrite (mapM_length _ _ _ H), length_seq. reflexivity. }
    rewrite Hlen.
    replace (width m * height m =? height m * height m)%nat with false; [reflexivity|].
    symmetry. apply Nat.eqb_neq. intros Heq. apply Hne.
    apply (Nat.mul_cancel_r _ _ (height m)); lia.
  - intros Hw Hl.
    assert (Hat := at2_transpose m).
    split; [|split].
    + unfold transpose_checked.
      rewrite (mapM_map_ok _ (col m)).
      * cbn [bind]. unfold new_with_data_checked, assert.
        rewrite (length_concat_uniform (height m)).
        -- rewrite length_map, length_seq, Hw, Nat.eqb_refl. cbn [bind].
           unfold transpose. now rewrite flat_map_concat_map, Hw.
        -- apply Forall_forall. intros l Hin. apply in_map_iff in Hin as [c [<- _]].
           apply col_length.
      * intros c Hc. apply in_seq in Hc. unfold col_checked.
        replace (c <=? length (data m))%nat with true
          by (symmetry; apply Nat.leb_le; rewrite Hl, Hw; nia).
        cbn [assert bind]. unfold col.
        apply mapM_map_ok. intros i Hi. apply in_seq in Hi.
        unfold idx. rewrite (nth_error_nth' _ 0) by (rewrite Hl, Hw; nia). reflexivity.
    + intros r c Hr Hc. now apply Hat.
    + destruct m as [d wd ht]. cbn [width height data] in *. subst wd.
      assert (HT : forall m', width m' = ht -> height m' = ht ->
                   width (transpose m') = ht /\ height (transpose m') = ht /\
                   length (data (transpose m')) = (ht * ht)%nat).
      { intros m' H1 H2. unfold transpose, new_with_data. cbn [width height data].
        rewrite flat_map_concat_map, (length_concat_uniform ht).
        - rewrite length_map, length_seq. lia.
        - apply Forall_forall. intros l Hin. apply in_map_iff in Hin as [c [<- _]].
          rewrite col_length. exact H2. }
      destruct (HT (mkMatrix d ht ht) eq_refl eq_refl) as [W1 [H1 L1]].
      destruct (HT _ W1 H1) as [W2 [H2 L2]].
      destruct (transpose (transpose (mkMatrix d ht ht))) as [d2 w2 h2] eqn:ET.
      cbn [width height data] in W2, H2, L2. subst w2 h2. f_equal.
      apply (square_data_ext ht); [exact L2 | exact Hl |].
      intros r c Hr Hc.
      pose proof (at2_transpose (transpose (mkMatrix d ht ht)) r c) as E1.
      rewrite ET in E1. rewrite W1, H1 in E1. specialize (E1 eq_refl Hr Hc).
      rewrite (at2_transpose (mkMatrix d ht ht) c r eq_refl Hc Hr) in E1.
      exact E1.
Qed.

Lemma transpose_square_witness :
  (width (mkMatrix [1; 2; 3; 4; 5; 6]%R 3 2) <> height (mkMatrix [1; 2; 3; 4; 5; 6]%R 3 2) /\
   (0 < height (mkMatrix [1; 2; 3; 4; 5; 6]%R 3 2))%nat /\
   transpose_checked (mkMatrix [1; 2; 3; 4; 5; 6]%R 3 2) = Panic) /\
  (width (mkMatrix [1; 2; 3; 4]%R 2 2) = height (mkMatrix [1; 2; 3; 4]%R 2 2) /\
   length (data (mkMatrix [1; 2; 3; 4]%R 2 2)) =
     (width (mkMatrix [1; 2; 3; 4]%R 2 2) * height (mkMatrix [1; 2; 3; 4]%R 2 2))%nat /\
   transpose (transpose (mkMatrix [1; 2; 3; 4]%R 2 2)) = mkMatrix [1; 2; 3; 4]%R 2 2).
Proof.
  split.
  - assert (H1 : width (mkMatrix [1; 2; 3; 4; 5; 6]%R 3 2) <> height (mkMatrix [1; 2; 3; 4; 5; 6]%R 3 2))
      by (cbn; lia).
    assert (H2 : (0 < height (mkMatrix [1; 2; 3; 4; 5; 6]%R 3 2))%nat) by (cbn; lia).
    split; [exact H1|]. split; [exact H2|].
    exact (proj1 (transpose_square _) H1 H2).
  - assert (H1 : width (mkMatrix [1; 2; 3; 4]%R 2 2) = height (mkMatrix [1; 2; 3; 4]%R 2 2)) by reflexivity.
    assert (H2 : length (data (mkMatrix [1; 2; 3; 4]%R 2 2)) =
                 (width (mkMatrix [1; 2; 3; 4]%R 2 2) * height (mkMatrix [1; 2; 3; 4]%R 2 2))%nat)
      by reflexivity.
    split; [exact H1|]. split; [exact H2|].
    exact (proj2 (proj2 (proj2 (transpose_square _) H1 H2))).
Defined.

(** ** Colour channels *)

Lemma floor_spec (r : R) : IZR (floor r) <= r < IZR (floor r) + 1.
Proof.
  unfold floor. destruct (archimed r) as [H1 H2]. rewrite minus_IZR. lra.
Qed.

Lemma floor_unique (z : Z) (r : R) : IZR z <= r < IZR z + 1 -> floor r = z.
Proof.
  intros [H1 H2]. unfold floor.
  rewrite <- (tech_up r (z + 1)); [lia| |]; rewrite plus_IZR; lra.
Qed.

Lemma floor_mono (r s : R) : r <= s -> (floor r <= floor s)%Z.
Proof.
  intros H. pose proof (floor_spec r). pose proof (floor_spec s).
  assert (IZR (floor r) < IZR (floor s + 1)) by (rewrite plus_IZR; lra).
  apply lt_IZR in H2. lia.
Qed.

Lemma round_nonneg (x : R) : 0 <= x -> round x = IZR (floor (x + 1 / 2)).
Proof. intros H. unfold round. destruct (Rle_dec 0 x); [reflexivity | lra]. Qed.

Lemma round_int (x : R) : exists k, round x = IZR k.
Proof.
  unfold round. destruct (Rle_dec 0 x).
  - eexists; reflexivity.
  - exists (- floor (- x + 1 / 2))%Z. now rewrite opp_IZR.
Qed.

Lemma round_nonpos (x : R) : x <= 0 -> round x <= 0.
Proof.
  intros H. unfold round. destruct (Rle_dec 0 x).
  - replace x with 0 by lra. rewrite (floor_unique 0); lra.
  - pose proof (floor_mono 0 (- x + 1 / 2) ltac:(lra)) as Hf.
    rewrite (floor_unique 0 0) in Hf by lra. apply IZR_le in Hf. lra.
Qed.

Lemma round_near (x : R) : 0 <= x -> Rabs (round x - x) <= 1 / 2.
Proof.
  intros H. rewrite (round_nonneg x H). pose proof (floor_spec (x + 1 / 2)).
  apply Rabs_le. lra.
Qed.

Lemma round_of_int (k : Z) : (0 <= k)%Z -> round (IZR k) = IZR k.
Proof.
  intros Hk. rewrite round_nonneg by (now apply IZR_le).
  rewrite (floor_unique k); [reflexivity | lra].
Qed.

Lemma as_uint_int (bits : nat) (k : Z) :
  (0 <= k)%Z -> as_uint bits (IZR k) = Z.to_nat (Z.min k (2 ^ Z.of_nat bits - 1)).
Proof.
  intros Hk. unfold as_uint. destruct (Rle_dec (IZR k) 0) as [H|H].
  - apply le_IZR in H. replace k with 0%Z by lia.
    assert (0 <= 2 ^ Z.of_nat bits - 1)%Z
      by (pose proof (Z.pow_pos_nonneg 2 (Z.of_nat bits)); lia).
    rewrite Z.min_l by lia. reflexivity.
  - rewrite (floor_unique k); [reflexivity | lra].
Qed.

(** The shape of one channel [(v * M).round().clamp(0.0, M) as uN]: the
    clamped value is an integer [k] in [0, M], it is [0] for [v <= 0], [M]
    for [1 <= v], within [1/2] of [v * M] in between, and the cast keeps
    [min k (2^N - 1)]. *)
Lemma channel_shape (M : Z) (bits : nat) (v : R) : (0 < M)%Z ->
  exists k, (0 <= k <= M)%Z /\
    clamp (round (v * IZR M)) 0 (IZR M) = IZR k /\
    as_uint bits (clamp (round (v * IZR M)) 0 (IZR M)) =
      Z.to_nat (Z.min k (2 ^ Z.of_nat bits - 1)) /\
    (v <= 0 -> k = 0%Z) /\ (1 <= v -> k = M) /\
    (0 <= v <= 1 -> Rabs (IZR k - v * IZR M) <= 1 / 2).
Proof.
  intros HM. assert (HMr : 0 < IZR M) by (now apply IZR_lt).
  destruct (round_int (v * IZR M)) as [j Hj].
  unfold clamp. destruct (Rlt_dec (round (v * IZR M)) 0) as [H0|H0];
    [|destruct (Rlt_dec (IZR M) (round (v * IZR M))) as [H1|H1]].
  - exists 0%Z. rewrite as_uint_int by lia.
    assert (Hv : v < 0).
    { destruct (Rle_dec 0 v) as [Hv|Hv]; [|lra].
      rewrite round_nonneg in H0 by nra.
      pose proof (floor_mono 0 (v * IZR M + 1 / 2) ltac:(nra)) as Hf.
      rewrite (floor_unique 0 0) in Hf by lra. apply IZR_le in Hf. lra. }
    repeat split; try lia; try (intros; lra).
  - exists M. rewrite as_uint_int by lia.
    assert (Hv : 0 < v).
    { destruct (Rle_dec v 0) as [Hv|Hv]; [|lra].
      pose proof (round_nonpos (v * IZR M)). nra. }
    repeat split; try lia; try (intros; lra).
    intros [_ Hv1]. rewrite round_nonneg in H1 by nra.
      pose proof (floor_spec (v * IZR M + 1 / 2)).
      assert (IZR M < IZR (floor (v * IZR M + 1 / 2))) by lra.
      apply lt_IZR in H2. assert (IZR (M + 1) <= IZR (floor (v * IZR M + 1 / 2)))
        by (apply IZR_le; lia).
      rewrite plus_IZR in H3. assert (v * IZR M <= IZR M) by nra. lra.
  - rewrite Hj in H0, H1 |- *. exists j.
    apply Rnot_lt_le in H0. apply Rnot_lt_le in H1.
    assert (Hj0 : (0 <= j)%Z) by (now apply le_IZR).
    assert (HjM : (j <= M)%Z) by (now apply le_IZR).
    rewrite as_uint_int by lia.
    repeat split; try lia.
    + intros Hv. pose proof (round_nonpos (v * IZR M)).
      assert (v * IZR M <= 0) by nra.
      assert (Hj1 : (j <= 0)%Z) by (apply le_IZR; lra). lia.
    + intros Hv. assert (Hx : IZR M <= v * IZR M) by nra.
      rewrite round_nonneg in Hj by nra.
      pose proof (floor_mono (IZR M) (v * IZR M + 1 / 2) ltac:(lra)).
      rewrite (floor_unique M (IZR M)) in H by lra.
      pose proof (eq_IZR _ _ Hj). lia.
    + intros [Hv0 Hv1]. rewrite <- Hj. apply round_near. nra.
Qed.

Lemma to_ppm_channel_bound (v : R) : (to_ppm_channel v <= 255)%nat.
Proof.
  destruct (channel_shape 255 64 v ltac:(lia)) as [k [Hk [_ [Ha _]]]].
  unfold to_ppm_channel. rewrite Ha. cbn - [Z.min]. lia.
Qed.

(** [Colour::to_ppm] channels: always at most [255], [0] for every value
    at or below [0.0], [255] for every value at or above [1.0], and in
    between the nearest integer to [v * 255] (within [1/2]). *)
Theorem to_ppm_channel_range (v : R) :
  (to_ppm_channel v <= 255)%nat /\
  (v <= 0 -> to_ppm_channel v = 0%nat) /\
  (1 <= v -> to_ppm_channel v = 255%nat) /\
  (0 <= v <= 1 -> Rabs (INR (to_ppm_channel v) - v * 255) <= 1 / 2).
Proof.
  destruct (channel_shape 255 64 v ltac:(lia)) as [k [Hk [_ [Ha [H0 [H1 H2]]]]]].
  unfold to_ppm_channel. rewrite Ha.
  replace (Z.min k (2 ^ Z.of_nat 64 - 1)) with k by (cbn; lia).
  repeat split.
  - lia.
  - intros Hv. now rewrite (H0 Hv).
  - intros Hv. now rewrite (H1 Hv).
  - intros Hv. rewrite INR_IZR_INZ, Znat.Z2Nat.id by lia. now apply H2.
Qed.

Lemma to_ppm_channel_range_witness :
  (0 <= 1 / 2 <= 1 /\ Rabs (INR (to_ppm_channel (1 / 2)) - 1 / 2 * 255) <= 1 / 2) /\
  (-1 <= 0 /\ to_ppm_channel (-1) = 0%nat) /\
  (1 <= 2 /\ to_ppm_channel 2 = 255%nat).
Proof.
  split; [|split].
  - assert (H : 0 <= 1 / 2 <= 1) by lra. split; [exact H|].
    exact (proj2 (proj2 (proj2 (to_ppm_channel_range (1 / 2)))) H).
  - assert (H : -1 <= 0) by lra. split; [exact H|].
    exact (proj1 (proj2 (to_ppm_channel_range (-1))) H).
  - assert (H : 1 <= 2) by lra. split; [exact H|].
    exact (proj1 (proj2 (proj2 (to_ppm_channel_range 2))) H).
Defined.

(** [Colour::to_binary_ppm] scales by [256] and clamps to [256.0], and
    [as u8] saturates: full intensity ([1.0] and above) gives [255], not a
    wrapped [0]; values at or below [0.0] give [0]; below full intensity
    the byte is the rounded [v * 256] as long as that stays under [256]. *)
Theorem to_binary_ppm_saturates (v : R) :
  (to_binary_ppm_channel v <= 255)%nat /\
  (v <= 0 -> to_binary_ppm_channel v = 0%nat) /\
  (1 <= v -> to_binary_ppm_channel v = 255%nat) /\
  (0 <= v -> v * 256 + 1 / 2 < 256 ->
     Rabs (INR (to_binary_ppm_channel v) - v * 256) <= 1 / 2).
Proof.
  destruct (channel_shape 256 8 v ltac:(lia)) as [k [Hk [Hc [Ha [H0 [H1 H2]]]]]].
  unfold to_binary_ppm_channel. rewrite Ha.
  replace (2 ^ Z.of_nat 8 - 1)%Z with 255%Z by reflexivity.
  repeat split.
  - lia.
  - intros Hv. now rewrite (H0 Hv).
  - intros Hv. now rewrite (H1 Hv).
  - intros Hv Hlt.
    assert (Hk255 : (k <= 255)%Z).
    { assert (Hv1 : v <= 1) by lra. specialize (H2 (conj Hv Hv1)).
      assert (IZR k < 256) by (unfold Rabs in H2; destruct (Rcase_abs _) in H2; lra).
      apply lt_IZR in H. lia. }
    rewrite Z.min_l by lia. rewrite INR_IZR_INZ, Znat.Z2Nat.id by lia. apply H2. lra.
Qed.

Lemma to_binary_ppm_saturates_witness :
  (1 <= 1 /\ to_binary_ppm_channel 1 = 255%nat) /\
  (0 <= 1 / 2 /\ 1 / 2 * 256 + 1 / 2 < 256 /\
   Rabs (INR (to_binary_ppm_channel (1 / 2)) - 1 / 2 * 256) <= 1 / 2).
Proof.
  split.
  - assert (H : 1 <= 1) by lra. split; [exact H|].
    exact (proj1 (proj2 (proj2 (to_binary_ppm_saturates 1))) H).
  - assert (H : 0 <= 1 / 2) by lra. assert (H' : 1 / 2 * 256 + 1 / 2 < 256) by lra.
    split; [exact H|]. split; [exact H'|].
    exact (proj2 (proj2 (proj2 (to_binary_ppm_saturates (1 / 2)))) H H').
Defined.

(** ** PPM output *)
Module PPMProofs.
Import PPM.

Lemma is_whitespace_SP : is_whitespace SP = true.
Proof. reflexivity. Qed.
Lemma is_whitespace_NL : is_whitespace NL = true.
Proof. reflexivity. Qed.

(** Digits, letters: no whitespace. *)
Definition no_ws (x : list Ascii.ascii) : Prop := Forall (fun a => is_whitespace a = false) x.

Lemma no_ws_app x y : no_ws x -> no_ws y -> no_ws (x ++ y).
Proof. unfold no_ws; intros; now apply Forall_app. Qed.

Lemma no_ws_no_NL x : no_ws x -> ~ In NL x.
Proof.
  unfold no_ws; intros H Hin. rewrite Forall_forall in H. specialize (H NL Hin).
  rewrite is_whitespace_NL in H. discriminate.
Qed.

Lemma show_nat_no_ws n : no_ws (show_nat n).
Proof.
  unfold show_nat, DecimalString.NilZero.string_of_uint.
  destruct (Nat.to_uint n) as [|u|u|u|u|u|u|u|u|u|u].
  1: repeat constructor.
  all: cbn - [is_whitespace]; constructor; [reflexivity|];
    induction u; cbn - [is_whitespace]; constructor; auto.
Qed.

Lemma show_nat_nonempty n : show_nat n <> [].
Proof.
  unfold show_nat, DecimalString.NilZero.string_of_uint.
  destruct (Nat.to_uint n); cbn; discriminate.
Qed.

Lemma show_nat_small_check :
  forallb (fun n => Nat.leb (length (show_nat n)) 3) (seq 0 256) = true.
Proof. vm_compute. reflexivity. Qed.

Lemma show_nat_small n : (n <= 255)%nat -> (length (show_nat n) <= 3)%nat.
Proof.
  intros Hn. pose proof show_nat_small_check as H. rewrite forallb_forall in H.
  apply Nat.leb_le. apply H. apply in_seq. lia.
Qed.

(** A token of the stream: non-empty, at most three characters, no whitespace. *)
Definition tok_ok (t : list Ascii.ascii) : Prop :=
  t <> [] /\ (length t <= 3)%nat /\ no_ws t.

Lemma split_ws_word x r cur : no_ws x -> split_ws (x ++ r) cur = split_ws r (rev x ++ cur).
Proof.
  intros H. revert cur; induction H as [|a x Ha Hx IH]; intros cur; [reflexivity|].
  cbn [app split_ws]. rewrite Ha, IH. cbn [rev]. now rewrite <- app_assoc.
Qed.

Lemma split_ws_sep a r cur : is_whitespace a = true -> cur <> [] ->
  split_ws (a :: r) cur = rev cur :: split_ws r [].
Proof. intros Ha Hc. destruct cur; [contradiction|]. cbn [split_ws]. now rewrite Ha. Qed.

Lemma split_ws_end cur : cur <> [] -> split_ws [] cur = [rev cur].
Proof. intros Hc. destruct cur; [contradiction | reflexivity]. Qed.

Lemma rev_nonempty {A : Type} (x : list A) : x <> [] -> rev x <> [].
Proof. intros H E. apply H. rewrite <- (rev_involutive x), E. reflexivity. Qed.

Lemma split_colour (c : Colour) :
  split_whitespace (Colour_to_ppm c) =
    [show_nat (to_ppm_channel (red c)); show_nat (to_ppm_channel (green c));
     show_nat (to_ppm_channel (blue c))].
Proof.
  unfold split_whitespace, Colour_to_ppm.
  rewrite split_ws_word by apply show_nat_no_ws. rewrite app_nil_r.
  cbn [app]. rewrite split_ws_sep by (reflexivity || apply rev_nonempty, show_nat_nonempty).
  rewrite rev_involutive.
  rewrite split_ws_word by apply show_nat_no_ws. rewrite app_nil_r.
  cbn [app]. rewrite split_ws_sep by (reflexivity || apply rev_nonempty, show_nat_nonempty).
  rewrite rev_involutive.
  rewrite <- (app_nil_r (show_nat (to_ppm_channel (blue c)))) at 1.
  rewrite split_ws_word by apply show_nat_no_ws. rewrite app_nil_r.
  rewrite split_ws_end by (apply rev_nonempty, show_nat_nonempty).
  now rewrite rev_involutive.
Qed.

(** The token stream of a canvas. *)
Definition tokens (data : list Colour) : list (list Ascii.ascii) :=
  flat_map (fun c => [show_nat (to_ppm_channel (red c)); show_nat (to_ppm_channel (green c));
                      show_nat (to_ppm_channel (blue c))]) data.

Lemma stream_tokens (data : list Colour) :
  flat_map (fun col => split_whitespace (Colour_to_ppm col)) data = tokens data.
Proof. unfold tokens. apply flat_map_ext. apply split_colour. Qed.

Lemma tokens_ok (data : list Colour) : Forall tok_ok (tokens data).
Proof.
  unfold tokens. apply Forall_forall. intros t Hin. apply in_flat_map in Hin as [c [_ Hin]].
  assert (G : forall n, (n <= 255)%nat -> tok_ok (show_nat n)).
  { intros n Hn. split; [apply show_nat_nonempty|]. split; [now apply show_nat_small|].
    apply show_nat_no_ws. }
  destruct Hin as [<-|[<-|[<-|[]]]]; apply G; apply to_ppm_channel_bound.
Qed.

Lemma join_cons (t : list Ascii.ascii) (ts : list (list Ascii.ascii)) :
  ts <> [] -> join (t :: ts) = t ++ SP :: join ts.
Proof. intros H. destruct ts; [contradiction | reflexivity]. Qed.

Lemma join_snoc (ln : list (list Ascii.ascii)) (c : list Ascii.ascii) :
  ln <> [] -> join (ln ++ [c]) = join ln ++ SP :: c.
Proof.
  induction ln as [|a ln IH]; intros H; [contradiction|].
  destruct ln as [|b ln]; [reflexivity|].
  rewrite <- app_comm_cons, !join_cons by (try destruct ln; discriminate).
  rewrite IH by discriminate. now rewrite <- app_assoc.
Qed.

Lemma body_snoc ls ln : body (ls ++ [ln]) = body ls ++ NL :: join ln.
Proof. unfold body. rewrite map_app, concat_app. cbn. now rewrite app_nil_r. Qed.

Lemma join_no_NL ln : Forall tok_ok ln -> ~ In NL (join ln).
Proof.
  induction 1 as [|t ln [_ [_ Ht]] Hln IH]; [intros []|].
  destruct ln as [|b ln]; [now apply no_ws_no_NL|].
  change (join (t :: b :: ln)) with (t ++ SP :: join (b :: ln)).
  intros Hin. apply in_app_or in Hin as [Hin|[E|Hin]].
  - exact (no_ws_no_NL t Ht Hin).
  - discriminate.
  - exact (IH Hin).
Qed.

Lemma enumerate_cons {A : Type} (a : A) (l : list A) :
  enumerate (a :: l) = (0%nat, a) :: combine (seq 1 (length l)) l.
Proof. reflexivity. Qed.

(** A line written by [into_ppm]: non-empty, of valid tokens, under 70 characters. *)
Definition line_ok (ln : list (list Ascii.ascii)) : Prop :=
  ln <> [] /\ Forall tok_ok ln /\ (length (join ln) < 70)%nat.

(** The loop of [into_ppm] once a first token is written: the output is a
    prefix, complete lines and a trailing space, and [size] counts the
    characters of the last line with that space. *)
Lemma ppm_fold (w : nat) (Hw : (0 < w)%nat) (pre : list Ascii.ascii) (ts : list (list Ascii.ascii)) :
  Forall tok_ok ts ->
  forall k ls, ls <> [] -> Forall line_ok ls ->
  exists ls', foldM (ppm_step w) (combine (seq k (length ts)) ts)
                (pre ++ body ls ++ [SP], (length (join (last ls [])) + 1)%nat)
              = Ok (pre ++ body ls' ++ [SP], (length (join (last ls' [])) + 1)%nat) /\
              ls' <> [] /\ Forall line_ok ls' /\ concat ls' = concat ls ++ ts.
Proof.
  induction 1 as [|t ts [Ht0 [Ht3 Htw]] Hts IH]; intros k ls Hne Hls.
  { exists ls. split; [reflexivity|]. rewrite app_nil_r. auto. }
  cbn [length seq combine]. rewrite foldM_cons.
  assert (Hlast : ls = removelast ls ++ [last ls []]) by (now apply app_removelast_last).
  assert (Hlok : line_ok (last ls [])).
  { rewrite Forall_forall in Hls. apply Hls. rewrite Hlast at 2. apply in_or_app. right. now left. }
  destruct Hlok as [Hl0 [Hlt Hl70]].
  assert (H3 : (w * 3 =? 0)%nat = false) by (apply Nat.eqb_neq; lia).
  set (brk := (70 <=? length (join (last ls [])) + 1 + length t + 1)%nat
              || (k mod (w * 3) =? 0)%nat).
  assert (Hstep : ppm_step w (pre ++ body ls ++ [SP], (length (join (last ls [])) + 1)%nat) (k, t)
    = if brk then Ok (pre ++ body (ls ++ [[t]]) ++ [SP], (length (join (last (ls ++ [[t]]) [])) + 1)%nat)
      else Ok (pre ++ body (removelast ls ++ [last ls [] ++ [t]]) ++ [SP],
               (length (join (last (removelast ls ++ [last ls [] ++ [t]]) [])) + 1)%nat)).
  { unfold ppm_step, brk. rewrite H3.
    destruct (70 <=? _)%nat; cbn [orb bind]; [|destruct (k mod (w * 3) =? 0)%nat]; cbn [bind].
    1,2: rewrite body_snoc, !last_last; cbn [join];
         rewrite (app_assoc pre (body ls) [SP]), removelast_last, <- !app_assoc;
         reflexivity.
    rewrite body_snoc, !last_last, join_snoc by exact Hl0.
    rewrite Hlast at 1. rewrite body_snoc, <- !app_assoc. cbn [app]. f_equal. f_equal.
    - now rewrite <- app_assoc.
    - rewrite length_app. cbn [length]. lia. }
  rewrite Hstep. destruct brk eqn:Ebrk; cbn [bind].
  - destruct (IH (S k) (ls ++ [[t]])) as [ls' [E [Hne' [Hok' Hc']]]].
    + intros E. destruct ls; discriminate.
    + apply Forall_app. split; [exact Hls|]. constructor; [|constructor].
      split; [discriminate|]. split; [constructor; [split; auto | constructor]|]. cbn. lia.
    + exists ls'. split; [exact E|]. split; [exact Hne'|]. split; [exact Hok'|].
      rewrite Hc', concat_app. cbn [concat]. rewrite app_nil_r, <- app_assoc. reflexivity.
  - assert (Hfit : (length (join (last ls [])) + 1 + length t + 1 < 70)%nat).
    { unfold brk in Ebrk. apply orb_false_iff in Ebrk as [E1 _].
      apply Nat.leb_gt in E1. exact E1. }
    destruct (IH (S k) (removelast ls ++ [last ls [] ++ [t]])) as [ls' [E [Hne' [Hok' Hc']]]].
    + intros E. destruct (removelast ls); discriminate.
    + apply Forall_app. split.
      * rewrite Hlast in Hls. apply Forall_app in Hls. apply Hls.
      * constructor; [|constructor].
        split; [destruct (last ls []); [contradiction|discriminate]|].
        split; [apply Forall_app; split; [exact Hlt | constructor; [split; auto | constructor]]|].
        rewrite join_snoc by exact Hl0. rewrite length_app. cbn [length]. lia.
    + exists ls'. split; [exact E|]. split; [exact Hne'|]. split; [exact Hok'|].
      rewrite Hc', concat_app. cbn [concat]. rewrite app_nil_r.
      replace (concat ls) with (concat (removelast ls ++ [last ls []])) by (now rewrite <- Hlast).
      rewrite concat_app. cbn [concat]. rewrite app_nil_r.
      now rewrite <- !app_assoc.
Qed.

Lemma split_lines_word x r cur : ~ In NL x -> split_lines (x ++ r) cur = split_lines r (rev x ++ cur).
Proof.
  revert cur; induction x as [|a x IH]; intros cur Hx; [reflexivity|].
  cbn [app split_lines]. destruct (Ascii.eqb_spec a NL) as [E|E].
  - exfalso. apply Hx. now left.
  - rewrite IH by (intros H; apply Hx; now right). cbn [rev]. now rewrite <- app_assoc.
Qed.

Lemma lines_line x r : ~ In NL x -> lines (x ++ NL :: r) = x :: lines r.
Proof.
  intros Hx. unfold lines. rewrite split_lines_word by exact Hx. cbn [split_lines].
  rewrite Ascii.eqb_refl, app_nil_r. now rewrite rev_involutive.
Qed.

Lemma lines_last x : ~ In NL x -> lines x = [x].
Proof.
  intros Hx. unfold lines. rewrite <- (app_nil_r x) at 1.
  rewrite split_lines_word by exact Hx. cbn. now rewrite app_nil_r, rev_involutive.
Qed.

Lemma lines_body x ls : ~ In NL x -> Forall (Forall tok_ok) ls ->
  lines (x ++ body ls) = x :: map join ls.
Proof.
  intros Hx Hls. revert x Hx; induction Hls as [|ln ls Hln Hls IH]; intros x Hx.
  - cbn. rewrite app_nil_r. now apply lines_last.
  - unfold body. cbn [map concat app]. rewrite lines_line by exact Hx. f_equal.
    apply IH. now apply join_no_NL.
Qed.

Lemma show_nat_no_NL n : ~ In NL (show_nat n).
Proof. apply no_ws_no_NL, show_nat_no_ws. Qed.

Lemma P3_no_NL : ~ In NL P3.
Proof. cbn. intros [E|[E|[]]]; discriminate. Qed.
Lemma S255_no_NL : ~ In NL S255.
Proof. cbn. intros [E|[E|[E|[]]]]; discriminate. Qed.

Lemma header_split w h :
  header w h = (P3 ++ NL :: (show_nat w ++ SP :: show_nat h) ++ NL :: S255) ++ [NL].
Proof. unfold header. repeat progress (rewrite <- ?app_assoc; cbn [app]). reflexivity. Qed.

Lemma lines_header w h ls : Forall (Forall tok_ok) ls ->
  lines ((P3 ++ NL :: (show_nat w ++ SP :: show_nat h) ++ NL :: S255) ++ body ls) =
  P3 :: (show_nat w ++ [SP] ++ show_nat h) :: S255 :: map join ls.
Proof.
  intros Hls. rewrite <- !app_assoc. cbn [app].
  rewrite (lines_line P3) by exact P3_no_NL.
  replace ((show_nat w ++ SP :: show_nat h ++ NL :: S255) ++ body ls)
    with ((show_nat w ++ SP :: show_nat h) ++ NL :: (S255 ++ body ls))
    by (repeat progress (rewrite <- ?app_assoc; cbn [app]); reflexivity).
  rewrite (lines_line (show_nat w ++ SP :: show_nat h)).
  - rewrite (lines_body S255) by (exact S255_no_NL || exact Hls). reflexivity.
  - intros Hin. apply in_app_or in Hin as [Hin|[E|Hin]].
    + exact (show_nat_no_NL w Hin).
    + discriminate.
    + exact (show_nat_no_NL h Hin).
Qed.

Lemma concat_Forall {A : Type} (P : A -> Prop) (ls : list (list A)) :
  Forall P (concat ls) -> Forall (Forall P) ls.
Proof.
  induction ls as [|l ls IH]; intros H; constructor; cbn in H; apply Forall_app in H; tauto.
Qed.

(** [Canvas::into_ppm] writes the header lines ["P3"], ["<width> <height>"]
    and ["255"], then the channel values of the pixels, in order, grouped
    into lines with single spaces between values; every line is non-empty
    and shorter than 70 characters. *)
Theorem into_ppm_layout (cv : Canvas.Canvas) (s : list Ascii.ascii) :
  into_ppm cv = Ok s ->
  exists ls,
    lines s = P3 :: (show_nat (Canvas.width cv) ++ [SP] ++ show_nat (Canvas.height cv))
                 :: S255 :: map join ls /\
    concat ls = tokens (Canvas.data cv) /\
    Forall (fun ln => ln <> [] /\ (length (join ln) < 70)%nat) ls.
Proof.
  unfold into_ppm. rewrite stream_tokens, header_split.
  pose proof (tokens_ok (Canvas.data cv)) as Hok.
  set (pre := P3 ++ NL :: (show_nat (Canvas.width cv) ++ SP :: show_nat (Canvas.height cv))
              ++ NL :: S255).
  destruct (tokens (Canvas.data cv)) as [|t ts] eqn:Et.
  - unfold enumerate, foldM. cbn [length seq combine fold_left bind fst].
    rewrite removelast_last. intros E. inversion E as [E']. clear E. subst s. exists [].
    split; [|split; [reflexivity | constructor]].
    pose proof (lines_header (Canvas.width cv) (Canvas.height cv) [] (Forall_nil _)) as HL.
    cbn [body map concat] in HL. rewrite app_nil_r in HL. exact HL.
  - unfold enumerate. cbn [length seq combine]. rewrite foldM_cons.
    inversion Hok as [|t' ts' [Ht0 [Ht3 Htw]] Hts]; subst t' ts'.
    unfold ppm_step at 1.
    replace (70 <=? 0 + length t + 1)%nat with false by (symmetry; apply Nat.leb_gt; lia).
    destruct (Canvas.width cv * 3 =? 0)%nat eqn:Ew; [cbn [bind]; intros E; discriminate E|].
    rewrite Nat.Div0.mod_0_l. cbn [Nat.eqb bind]. rewrite removelast_last.
    assert (Hw : (0 < Canvas.width cv)%nat) by (apply Nat.eqb_neq in Ew; lia).
    destruct (ppm_fold _ Hw pre ts Hts 1 [[t]]) as [ls' [E [Hne [Hls Hc]]]].
    + discriminate.
    + constructor; [|constructor]. split; [discriminate|]. split; [constructor; [exact (conj Ht0 (conj Ht3 Htw)) | constructor]|].
      cbn. lia.
    + cbn [body map concat join last] in E. rewrite app_nil_r in E.
      replace ((pre ++ [NL]) ++ t ++ [SP]) with (pre ++ (NL :: t) ++ [SP])
        by (rewrite <- app_assoc; reflexivity).
      replace (0 + length t + 1)%nat with (length t + 1)%nat by lia.
      rewrite E. cbn [bind fst]. rewrite (app_assoc pre (body ls') [SP]), removelast_last.
      intros E'. inversion E' as [E'']. clear E'. subst s. exists ls'.
      split; [|split].
      * apply lines_header. apply concat_Forall. rewrite Hc. cbn. now constructor.
      * rewrite Hc. reflexivity.
      * eapply Forall_impl; [|exact Hls]. intros ln [H1 [_ H2]]. auto.
Qed.

Lemma into_ppm_panic_iff (cv : Canvas.Canvas) :
  into_ppm cv = Panic <-> Canvas.width cv = 0%nat /\ Canvas.data cv <> [].
Proof.
  unfold into_ppm. rewrite stream_tokens, header_split.
  pose proof (tokens_ok (Canvas.data cv)) as Hok.
  destruct (Canvas.data cv) as [|c d] eqn:Ed.
  - cbn. split; [discriminate | intros [_ []]; reflexivity].
  - unfold tokens in Hok |- *. cbn [flat_map app] in Hok |- *.
    apply Forall_cons_iff in Hok as [[Ht0 [Ht3 Htw]] Hts].
    set (ts := show_nat (to_ppm_channel (green c)) :: _) in Hts |- *.
    rewrite enumerate_cons, foldM_cons.
    unfold ppm_step at 1.
    replace (70 <=? 0 + length (show_nat (to_ppm_channel (red c))) + 1)%nat with false
      by (symmetry; apply Nat.leb_gt; lia).
    destruct (Canvas.width cv) as [|w] eqn:Ew.
    + cbn; try rewrite foldM_panic. split; [intros _; split; [reflexivity | discriminate] | reflexivity].
    + replace (S w * 3 =? 0)%nat with false by reflexivity.
      rewrite Nat.Div0.mod_0_l. cbn [Nat.eqb bind]. rewrite removelast_last.
      assert (Hw : (0 < S w)%nat) by lia.
      set (t := show_nat (to_ppm_channel (red c))) in *.
      set (pre := P3 ++ NL :: (show_nat (S w) ++ SP :: show_nat (Canvas.height cv))
                  ++ NL :: S255).
      destruct (ppm_fold _ Hw pre _ Hts 1 [[t]]) as [ls' [E _]].
      * discriminate.
      * constructor; [|constructor]. split; [discriminate|].
        split; [constructor; [exact (conj Ht0 (conj Ht3 Htw)) | constructor]|]. cbn. lia.
      * cbn [body map concat join last] in E. rewrite app_nil_r in E.
        replace (0 + length t + 1)%nat with (length t + 1)%nat by lia.
        replace ((pre ++ [NL]) ++ t ++ [SP]) with (pre ++ (NL :: t) ++ [SP])
          by (rewrite <- app_assoc; reflexivity).
        rewrite E. cbn [bind].
        split; [discriminate | intros [H _]; discriminate].
Qed.

(** [Canvas::into_ppm] panics exactly when the canvas has width [0] but
    some pixels: the first value is not at a full line, and the
    [i % (width * 3)] divides by zero. A canvas from [Canvas::new] never
    panics. *)
Theorem into_ppm_panic (cv : Canvas.Canvas) :
  (into_ppm cv = Panic <-> Canvas.width cv = 0%nat /\ Canvas.data cv <> []) /\
  (forall w h, exists s, into_ppm (Canvas.new w h) = Ok s).
Proof.
  split; [apply into_ppm_panic_iff|].
  intros w h. destruct (into_ppm (Canvas.new w h)) as [s|] eqn:E; [now exists s|].
  apply into_ppm_panic_iff in E as [E1 E2]. cbn in E1. subst w. cbn in E2. contradiction.
Qed.

(** A canvas of width zero that still holds a pixel makes [into_ppm]
    panic. *)
Lemma into_ppm_panic_witness :
  into_ppm (Canvas.mkCanvas 0 1 [BLACK]) = Panic /\
  exists s, into_ppm (Canvas.new 3%nat 2%nat) = Ok s.
Proof.
  split.
  - apply (proj2 (proj1 (into_ppm_panic (Canvas.mkCanvas 0 1 [BLACK])))).
    split; [reflexivity | discriminate].
  - exact (proj2 (into_ppm_panic (Canvas.mkCanvas 0 1 [BLACK])) 3%nat 2%nat).
Defined.

Lemma to_ppm_channel_zero : to_ppm_channel 0 = 0%nat.
Proof.
  destruct (channel_shape 255 64 0 ltac:(lia)) as [k [_ [_ [Ha [H0 _]]]]].
  unfold to_ppm_channel. rewrite Ha, (H0 (Rle_refl 0)). reflexivity.
Qed.

Section Example_2_1.
Import Ascii.AsciiSyntax String.StringSyntax.
Local Open Scope string_scope.
(** The PPM text of a black 2x1 canvas. *)
Definition new_2_1_ppm : list Ascii.ascii := String.list_ascii_of_string "P3
2 1
255
0 0 0 0 0 0".
End Example_2_1.

Lemma into_ppm_new_2_1 : into_ppm (Canvas.new 2 1) = Ok new_2_1_ppm.
Proof.
  unfold into_ppm. rewrite stream_tokens. unfold tokens, Canvas.new.
  change (usize_mul 2 1) with 2%nat. cbn [Canvas.data Canvas.width
    Canvas.height Nat.mul Nat.add repeat flat_map app BLACK red green blue].
  rewrite to_ppm_channel_zero. vm_compute. reflexivity.
Qed.

(** The layout is reached: [Canvas::new(2, 1)] is written as
    [new_2_1_ppm]. *)
Lemma into_ppm_layout_witness :
  exists s, into_ppm (Canvas.new 2 1) = Ok s /\
  exists ls,
    lines s = P3 :: (show_nat (Canvas.width (Canvas.new 2 1)) ++ [SP] ++
                     show_nat (Canvas.height (Canvas.new 2 1)))
                 :: S255 :: map join ls /\
    concat ls = tokens (Canvas.data (Canvas.new 2 1)) /\
    Forall (fun ln => ln <> [] /\ (length (join ln) < 70)%nat) ls.
Proof.
  eexists. split; [exact into_ppm_new_2_1|].
  exact (into_ppm_layout (Canvas.new 2 1) _ into_ppm_new_2_1).
Defined.
End PPMProofs.

(** ** Canvas indexing *)

Lemma nth_error_repeat' {A : Type} (a : A) (n i : nat) :
  (i < n)%nat -> nth_error (repeat a n) i = Some a.
Proof. revert i; induction n as [|n IH]; intros [|i] H; cbn; try lia; auto. apply IH; lia. Qed.

(** [canvas[(x, y)] = v] on an index inside the data writes [v] at the
    [usize] index [width * y + x] and nowhere else: the canvas keeps its
    extents and size, reading [(x, y)] back gives [v], and every pixel
    with another index reads as before. When neither index overflows
    [usize], every other pixel of the rows has another index, so it
    reads as before. On an index past the data both the write and the
    read panic. *)
Theorem canvas_set_get (c : Canvas.Canvas) (px py : nat) (v : Colour) :
  ((Canvas.make_index (Canvas.width c) px py < length (Canvas.data c))%nat ->
   exists c', Canvas.set c px py v = Ok c' /\
     Canvas.width c' = Canvas.width c /\ Canvas.height c' = Canvas.height c /\
     length (Canvas.data c') = length (Canvas.data c) /\
     Canvas.get c' px py = Ok v /\
     (forall qx qy,
        Canvas.make_index (Canvas.width c) qx qy <> Canvas.make_index (Canvas.width c) px py ->
        Canvas.get c' qx qy = Canvas.get c qx qy) /\
     (forall qx qy, (px < Canvas.width c)%nat -> (qx < Canvas.width c)%nat ->
        (Z.of_nat (Canvas.width c) * Z.of_nat py + Z.of_nat px < usize_modulus)%Z ->
        (Z.of_nat (Canvas.width c) * Z.of_nat qy + Z.of_nat qx < usize_modulus)%Z ->
        (qx, qy) <> (px, py) -> Canvas.get c' qx qy = Canvas.get c qx qy)) /\
  ((length (Canvas.data c) <= Canvas.make_index (Canvas.width c) px py)%nat ->
   Canvas.set c px py v = Panic /\ Canvas.get c px py = Panic).
Proof.
  split.
  - intros Hi. unfold Canvas.set. apply Nat.ltb_lt in Hi as Hb. rewrite Hb.
    eexists. split; [reflexivity|]. cbn [Canvas.width Canvas.height Canvas.data].
    split; [reflexivity|]. split; [reflexivity|]. split; [apply list_set_length|].
    assert (Hother : forall qx qy,
        Canvas.make_index (Canvas.width c) qx qy <> Canvas.make_index (Canvas.width c) px py ->
        Canvas.get (Canvas.mkCanvas (Canvas.width c) (Canvas.height c)
          (list_set (Canvas.data c) (Canvas.make_index (Canvas.width c) px py) v)) qx qy
        = Canvas.get c qx qy).
    { intros qx qy Hne. unfold Canvas.get. cbn [Canvas.width Canvas.data].
      rewrite list_set_other; [reflexivity|]. intros E. apply Hne. symmetry. exact E. }
    split; [|split].
    + unfold Canvas.get. cbn [Canvas.width Canvas.data]. now rewrite list_set_same.
    + exact Hother.
    + intros qx qy Hp Hq Bp Bq Hne. apply Hother. intros E.
      apply Hne. destruct (make_index_inj _ _ _ _ _ Hq Hp Bq Bp E) as [-> ->]. reflexivity.
  - intros Hi. split.
    + unfold Canvas.set. replace (_ <? _)%nat with false; [reflexivity|].
      symmetry. apply Nat.ltb_ge. exact Hi.
    + unfold Canvas.get. now rewrite (proj2 (nth_error_None _ _) Hi).
Qed.

Lemma canvas_set_get_witness :
  (Canvas.make_index (Canvas.width (Canvas.new 2 2)) 1 0 < length (Canvas.data (Canvas.new 2 2)))%nat /\
  (length (Canvas.data (Canvas.new 1 1)) <= Canvas.make_index (Canvas.width (Canvas.new 1 1)) 1 1)%nat /\
  Canvas.set (Canvas.new 1 1) 1 1 WHITE = Panic /\
  exists c', Canvas.set (Canvas.new 2 2) 1 0 WHITE = Ok c' /\ Canvas.get c' 1 0 = Ok WHITE.
Proof.
  assert (H1 : (Canvas.make_index (Canvas.width (Canvas.new 2 2)) 1 0
                < length (Canvas.data (Canvas.new 2 2)))%nat) by (apply Nat.ltb_lt; reflexivity).
  assert (H2 : (length (Canvas.data (Canvas.new 1 1))
                <= Canvas.make_index (Canvas.width (Canvas.new 1 1)) 1 1)%nat)
    by (apply Nat.leb_le; reflexivity).
  split; [exact H1|]. split; [exact H2|]. split.
  - exact (proj1 (proj2 (canvas_set_get (Canvas.new 1 1) 1 1 WHITE) H2)).
  - destruct (proj1 (canvas_set_get (Canvas.new 2 2) 1 0 WHITE) H1)
      as [c' [E [_ [_ [_ [G _]]]]]].
    exists c'. split; [exact E | exact G].
Defined.

(** [Canvas::new] and [Canvas::new_with_colour] fill every pixel of the
    extents with the base colour ([Colour::default()], black, for
    [new]) and an index past [width * height] panics, when
    [width * height] does not overflow [usize]. The index is not
    checked per axis: [(width + x, y)] reads the pixel [(x, y + 1)]. *)
Theorem canvas_new_get (w h : nat) (col : Colour) (px py : nat) :
  ((Z.of_nat w * Z.of_nat h < usize_modulus)%Z ->
   ((px < w)%nat -> (py < h)%nat ->
    Canvas.get (new_with_colour w h col) px py = Ok col /\
    Canvas.get (Canvas.new w h) px py = Ok BLACK) /\
   ((w * h <= Canvas.make_index w px py)%nat ->
    Canvas.get (new_with_colour w h col) px py = Panic /\
    Canvas.get (Canvas.new w h) px py = Panic)) /\
  (forall c : Canvas.Canvas,
   Canvas.get c (Canvas.width c + px) py = Canvas.get c px (S py)).
Proof.
  split.
  - intros Hb. split.
    + intros Hx Hy. unfold Canvas.get, new_with_colour, Canvas.new.
      cbn [Canvas.width Canvas.data].
      rewrite usize_mul_small, make_index_small
        by (try apply (pixel_index_bound _ h); assumption).
      rewrite !nth_error_repeat' by nia. split; reflexivity.
    + intros Hi. unfold Canvas.get, new_with_colour, Canvas.new.
      cbn [Canvas.width Canvas.data]. rewrite usize_mul_small by exact Hb.
      rewrite !(proj2 (nth_error_None _ _)) by (rewrite repeat_length; exact Hi).
      split; reflexivity.
  - intros c. unfold Canvas.get. rewrite !make_index_mod. do 4 f_equal. lia.
Qed.

Lemma canvas_new_get_witness :
  ((Z.of_nat 5 * Z.of_nat 5 < usize_modulus)%Z /\ (0 < 5)%nat /\ (4 < 5)%nat /\
   Canvas.get (new_with_colour 5 5 WHITE) 0 4 = Ok WHITE) /\
  ((Z.of_nat 1 * Z.of_nat 1 < usize_modulus)%Z /\
   (1 * 1 <= Canvas.make_index 1 1 1)%nat /\ Canvas.get (Canvas.new 1 1) 1 1 = Panic).
Proof.
  assert (B5 : (Z.of_nat 5 * Z.of_nat 5 < usize_modulus)%Z) by reflexivity.
  assert (B1 : (Z.of_nat 1 * Z.of_nat 1 < usize_modulus)%Z) by reflexivity.
  split.
  - assert (H1 : (0 < 5)%nat) by lia. assert (H2 : (4 < 5)%nat) by lia.
    split; [exact B5|]. split; [exact H1|]. split; [exact H2|].
    exact (proj1 (proj1 (proj1 (canvas_new_get 5 5 WHITE 0 4) B5) H1 H2)).
  - assert (H : (1 * 1 <= Canvas.make_index 1 1 1)%nat) by (apply Nat.leb_le; reflexivity).
    split; [exact B1|]. split; [exact H|].
    exact (proj2 (proj2 (proj1 (canvas_new_get 1 1 WHITE 1 1) B1) H)).
Defined.

(** ** Camera *)

Lemma INR_pos (n : nat) : (0 < n)%nat -> 0 < INR n.
Proof. intros H. apply lt_0_INR. exact H. Qed.

Lemma camera_fields (h v : nat) (fov : R) (tr : Matrix) (cam : Camera.Camera) :
  new_with_transform h v fov tr = Ok cam -> (0 < h)%nat -> (0 < v)%nat ->
  Some (Camera.inverse_transform cam) = inverse tr /\ Camera.transform cam = tr /\
  Camera.hsize cam = h /\ Camera.vsize cam = v /\ Camera.fov cam = fov /\
  Camera.pixel_size cam * INR h = 2 * Camera.half_width cam /\
  Camera.pixel_size cam * INR v = 2 * Camera.half_height cam /\
  ((v <= h)%nat -> Camera.half_width cam = tan (fov / 2)) /\
  ((h < v)%nat -> Camera.half_height cam = tan (fov / 2)).
Proof.
  intros E Hh Hv. apply INR_pos in Hh as Hh'. apply INR_pos in Hv as Hv'.
  unfold new_with_transform in E.
  destruct (inverse tr) as [inv|] eqn:Ei; cbn [unwrap] in E;
    [|destruct (Rle_dec _ _); discriminate].
  destruct (Rle_dec 1 (INR h / INR v)) as [Ha|Ha]; cbn [bind] in E; injection E as <-;
    cbn [Camera.inverse_transform Camera.transform Camera.hsize Camera.vsize Camera.fov
         Camera.pixel_size Camera.half_width Camera.half_height].
  - do 5 (split; [reflexivity|]). split; [field; lra|]. split; [field; lra|].
    split; [reflexivity|]. intros Hlt. apply lt_INR in Hlt.
    exfalso. apply Rle_ge in Ha. apply Rge_le in Ha.
    apply (Rmult_le_compat_r (INR v)) in Ha; [|lra].
    unfold Rdiv in Ha. rewrite Rmult_assoc, Rinv_l in Ha by lra. lra.
  - do 5 (split; [reflexivity|]). split; [field; lra|]. split; [field; lra|].
    split; [|reflexivity]. intros Hle. apply le_INR in Hle.
    exfalso. apply Ha. apply (Rmult_le_reg_r (INR v)); [lra|].
    unfold Rdiv. rewrite Rmult_assoc, Rinv_l by lra. lra.
Qed.

(** [Camera::new_with_transform] panics ([expect]) on a transform without
    an inverse. Otherwise it keeps the transform and stores its inverse,
    and the pixels are square: [hsize] pixels span the full width
    [2 * half_width] and [vsize] pixels the full height [2 * half_height];
    the longer side gets the half view [tan(fov / 2)]. *)
Theorem camera_square_pixels (h v : nat) (fov : R) (tr : Matrix) :
  (inverse tr = None -> new_with_transform h v fov tr = Panic) /\
  (forall cam, new_with_transform h v fov tr = Ok cam -> (0 < h)%nat -> (0 < v)%nat ->
     Some (Camera.inverse_transform cam) = inverse tr /\ Camera.transform cam = tr /\
     Camera.pixel_size cam * INR h = 2 * Camera.half_width cam /\
     Camera.pixel_size cam * INR v = 2 * Camera.half_height cam /\
     ((v <= h)%nat -> Camera.half_width cam = tan (fov / 2)) /\
     ((h < v)%nat -> Camera.half_height cam = tan (fov / 2))).
Proof.
  split.
  - intros Ei. unfold new_with_transform. rewrite Ei. destruct (Rle_dec _ _); reflexivity.
  - intros cam E Hh Hv.
    destruct (camera_fields h v fov tr cam E Hh Hv) as [A [B [_ [_ [_ [C [D [F G]]]]]]]].
    auto 7.
Qed.

Lemma camera_200_125 :
  new_with_transform 200 125 (PI / 2) IDENTITY_4X4 =
    Ok (Camera.mkCamera 200 125 (PI / 2) IDENTITY_4X4 (tan (PI / 2 / 2))
          (tan (PI / 2 / 2) / (INR 200 / INR 125)) (tan (PI / 2 / 2) * 2 / INR 200)
          IDENTITY_4X4).
Proof.
  unfold new_with_transform. rewrite inverse_identity. cbn [unwrap bind].
  destruct (Rle_dec 1 (INR 200 / INR 125)) as [|Hn]; [reflexivity|].
  exfalso. apply Hn. rewrite !INR_IZR_INZ. cbn [Z.of_nat Pos.of_succ_nat Pos.succ].
  apply (Rmult_le_reg_r 125); [lra|]. unfold Rdiv. rewrite Rmult_assoc, Rinv_l by lra. lra.
Qed.

(** The camera of the book's test, 200x125 with a quarter-turn field of
    view: its pixels are [0.01] wide. *)
Lemma camera_square_pixels_witness :
  exists cam, new_with_transform 200 125 (PI / 2) IDENTITY_4X4 = Ok cam /\
    Camera.pixel_size cam * INR 200 = 2 * Camera.half_width cam /\
    Camera.half_width cam = tan (PI / 2 / 2) /\
    Camera.pixel_size cam = 1 / 100.
Proof.
  eexists. split; [exact camera_200_125|].
  assert (H200 : (0 < 200)%nat) by lia. assert (H125 : (0 < 125)%nat) by lia.
  assert (Hle : (125 <= 200)%nat) by lia.
  destruct (proj2 (camera_square_pixels 200 125 (PI / 2) IDENTITY_4X4) _ camera_200_125 H200 H125)
    as [_ [_ [Hp [_ [Hw _]]]]].
  split; [exact Hp|]. split; [exact (Hw Hle)|].
  cbn [Camera.pixel_size]. replace (PI / 2 / 2) with (PI / 4) by field. rewrite tan_PI4.
  rewrite INR_IZR_INZ. cbn [Z.of_nat Pos.of_succ_nat Pos.succ]. field.
Defined.

Lemma normalize_len1 (v : Tuple) : magnitude v <> 0 -> magnitude (normalize v) = 1.
Proof.
  intros Hm. pose proof (magnitude_sq v) as Hs.
  apply magnitude_unit. unfold normalize; cbn [x y z w].
  field_simplify; [|exact Hm]. rewrite <- Hs. field. exact Hm.
Qed.

Lemma magnitude_pos_z (v : Tuple) : z v <> 0 -> 0 < magnitude v.
Proof.
  intros Hz. unfold magnitude. apply sqrt_lt_R0.
  pose proof (pow2_ge_0 (x v)); pose proof (pow2_ge_0 (y v)); pose proof (pow2_ge_0 (w v)).
  assert (0 < z v ^ 2) by (replace (z v ^ 2) with (Rsqr (z v)) by (unfold Rsqr; ring);
                            apply Rsqr_pos_lt; exact Hz).
  lra.
Qed.

Lemma tsub_origin_vector (a b c : R) :
  tsub (point a b c) ZERO_POINT = vector a b c.
Proof. unfold tsub, ZERO_POINT, point, vector; cbn [x y z w]. f_equal; ring. Qed.

Lemma ray_for_pixel_at_origin (cam : Camera.Camera) (px py : nat) :
  Camera.inverse_transform cam = IDENTITY_4X4 ->
  let wx := Camera.half_width cam - (INR px + 1 / 2) * Camera.pixel_size cam in
  let wy := Camera.half_height cam - (INR py + 1 / 2) * Camera.pixel_size cam in
  Camera.ray_for_pixel cam px py = Ok (mkRay ZERO_POINT (normalize (vector wx wy (-1)))) /\
  magnitude (normalize (vector wx wy (-1))) = 1 /\
  z (normalize (vector wx wy (-1))) < 0.
Proof.
  intros Hi wx wy.
  assert (Hm : 0 < magnitude (vector wx wy (-1)))
    by (apply magnitude_pos_z; cbn; lra).
  split; [|split].
  - unfold Camera.ray_for_pixel. rewrite Hi, !mul_identity. cbn [bind].
    rewrite tsub_origin_vector. apply ray_new_ok; [reflexivity|].
    apply normalize_w. reflexivity.
  - apply normalize_len1. lra.
  - unfold normalize. cbn [z vector]. unfold Rdiv.
    pose proof (Rinv_0_lt_compat _ Hm). lra.
Qed.

(** [Camera::ray_for_pixel] on a camera at the origin (inverse transform
    the identity, as [Camera::new] builds): the ray starts at the origin
    and points, with unit length, at the pixel's centre on the canvas
    plane [z = -1]. With a transform that is not 4x4 the product panics. *)
Theorem ray_for_pixel_identity (cam : Camera.Camera) (px py : nat) :
  Camera.inverse_transform cam = IDENTITY_4X4 ->
  let wx := Camera.half_width cam - (INR px + 1 / 2) * Camera.pixel_size cam in
  let wy := Camera.half_height cam - (INR py + 1 / 2) * Camera.pixel_size cam in
  Camera.ray_for_pixel cam px py = Ok (mkRay ZERO_POINT (normalize (vector wx wy (-1)))) /\
  magnitude (normalize (vector wx wy (-1))) = 1 /\
  z (normalize (vector wx wy (-1))) < 0.
Proof. exact (ray_for_pixel_at_origin cam px py). Qed.

Lemma ray_for_pixel_identity_witness :
  exists cam, camera_new 200 125 (PI / 2) = Ok cam /\
    Camera.inverse_transform cam = IDENTITY_4X4 /\
    Camera.ray_for_pixel cam 0 0 =
      Ok (mkRay ZERO_POINT (normalize (vector
        (Camera.half_width cam - (INR 0 + 1 / 2) * Camera.pixel_size cam)
        (Camera.half_height cam - (INR 0 + 1 / 2) * Camera.pixel_size cam) (-1)))).
Proof.
  eexists. split; [exact camera_200_125|].
  assert (Hi : Camera.inverse_transform
     (Camera.mkCamera 200 125 (PI / 2) IDENTITY_4X4 (tan (PI / 2 / 2))
        (tan (PI / 2 / 2) / (INR 200 / INR 125)) (tan (PI / 2 / 2) * 2 / INR 200)
        IDENTITY_4X4) = IDENTITY_4X4) by reflexivity.
  split; [exact Hi|].
  exact (proj1 (ray_for_pixel_identity _ 0 0 Hi)).
Defined.

(** On a canvas of odd extents [2h+1] by [2v+1], the camera of
    [Camera::new] sends the ray of the middle pixel [(h, v)] straight down
    the [-z] axis from the origin. *)
Theorem camera_centre_ray (h v : nat) (fov : R) (cam : Camera.Camera) :
  camera_new (2 * h + 1) (2 * v + 1) fov = Ok cam ->
  Camera.ray_for_pixel cam h v = Ok (mkRay ZERO_POINT (vector 0 0 (-1))).
Proof.
  intros E. unfold camera_new in E.
  destruct (camera_fields _ _ _ _ _ E ltac:(lia) ltac:(lia))
    as [Hi [_ [_ [_ [_ [Hw [Hh _]]]]]]].
  rewrite inverse_identity in Hi. injection Hi as Hi.
  destruct (ray_for_pixel_at_origin cam h v Hi) as [R _]. rewrite R.
  rewrite plus_INR, mult_INR in Hw, Hh. cbn [INR] in Hw, Hh.
  assert (Ex : Camera.half_width cam - (INR h + 1 / 2) * Camera.pixel_size cam = 0) by lra.
  assert (Ey : Camera.half_height cam - (INR v + 1 / 2) * Camera.pixel_size cam = 0) by lra.
  rewrite Ex, Ey.
  assert (M : magnitude (vector 0 0 (-1)) = 1) by (apply magnitude_unit; cbn; ring).
  unfold normalize. rewrite M. unfold vector. cbn [x y z w]. do 3 f_equal; field.
Qed.

Lemma camera_centre_ray_witness :
  exists cam, camera_new (2 * 2 + 1) (2 * 1 + 1) (PI / 2) = Ok cam /\
    Camera.ray_for_pixel cam 2 1 = Ok (mkRay ZERO_POINT (vector 0 0 (-1))).
Proof.
  destruct (camera_new (2 * 2 + 1) (2 * 1 + 1) (PI / 2)) as [cam|] eqn:E.
  - exists cam. split; [reflexivity|]. exact (camera_centre_ray 2 1 (PI / 2) cam E).
  - exfalso. unfold camera_new, new_with_transform in E. rewrite inverse_identity in E.
    cbn [unwrap bind] in E. destruct (Rle_dec _ _); discriminate E.
Defined.

(** ** Planes *)

Lemma transpose_identity : transpose IDENTITY_4X4 = IDENTITY_4X4.
Proof. reflexivity. Qed.

Lemma epsilon_pos : 0 < Float.EPSILON.
Proof. unfold Float.EPSILON, Float.MAX_DIFF. lra. Qed.

(** [Plane::intersect]: the ray is taken into the plane's object space by
    the inverse transform; a local ray running within [EPSILON] of
    parallel to the [xz] plane gives [None], any other gives exactly one
    intersection, with the plane itself, at the [t] where the local ray
    crosses [y = 0]. *)
Theorem plane_intersect (p : Plane) (r : Ray) (inv : Matrix) (lr : Ray) :
  inverse (plane_transform p) = Some inv -> ray_transform r inv = Ok lr ->
  (Rabs (y (direction lr)) < Float.EPSILON ->
     intersect (plane_shape p) r = Ok None) /\
  (Float.EPSILON <= Rabs (y (direction lr)) ->
     exists tv, intersect (plane_shape p) r = Ok (Some [mkIntersection tv (plane_shape p)]) /\
       y (ray_position lr tv) = 0).
Proof.
  intros Hi Hr. unfold intersect. cbn [transform plane_shape local_interception].
  rewrite Hi. cbn [unwrap bind]. rewrite Hr. cbn [bind].
  unfold plane_local, Rltb. split.
  - intros Hl. destruct (Rlt_dec _ _); [reflexivity|contradiction].
  - intros Hl. destruct (Rlt_dec _ _) as [Hc|_]; [lra|].
    eexists. split; [reflexivity|].
    assert (Hy : y (direction lr) <> 0).
    { intros E. rewrite E, Rabs_R0 in Hl. pose proof epsilon_pos. lra. }
    unfold ray_position, tadd, tscale. cbn [y]. field. exact Hy.
Qed.

Lemma plane_intersect_witness :
  inverse (plane_transform (plane_new 0 IDENTITY_4X4 material_default)) = Some IDENTITY_4X4 /\
  ray_transform (mkRay (point 0 1 0) (vector 0 (-1) 0)) IDENTITY_4X4
    = Ok (mkRay (point 0 1 0) (vector 0 (-1) 0)) /\
  exists tv, intersect (plane_shape (plane_new 0 IDENTITY_4X4 material_default))
                (mkRay (point 0 1 0) (vector 0 (-1) 0))
             = Ok (Some [mkIntersection tv (plane_shape (plane_new 0 IDENTITY_4X4 material_default))]) /\
    y (ray_position (mkRay (point 0 1 0) (vector 0 (-1) 0)) tv) = 0.
Proof.
  assert (H1 : inverse (plane_transform (plane_new 0 IDENTITY_4X4 material_default))
               = Some IDENTITY_4X4) by exact inverse_identity.
  assert (H2 : ray_transform (mkRay (point 0 1 0) (vector 0 (-1) 0)) IDENTITY_4X4
               = Ok (mkRay (point 0 1 0) (vector 0 (-1) 0)))
    by (apply ray_transform_identity; reflexivity).
  split; [exact H1|]. split; [exact H2|].
  apply (proj2 (plane_intersect _ _ _ _ H1 H2)).
  cbn [direction vector y]. rewrite Rabs_left by lra.
  unfold Float.EPSILON, Float.MAX_DIFF. lra.
Defined.

(** [Shape::normal_at] on a plane: with an invertible 4x4 transform the
    normal is the same at every point, and with the identity transform it
    is the local normal [(0, 1, 0)]. *)
Theorem plane_normal_constant (p : Plane) (inv : Matrix) (pt1 pt2 : Tuple) :
  inverse (plane_transform p) = Some inv -> height inv = 4%nat ->
  normal_at (plane_shape p) pt1 = normal_at (plane_shape p) pt2 /\
  (plane_transform p = IDENTITY_4X4 -> normal_at (plane_shape p) pt1 = Ok (vector 0 1 0)).
Proof.
  intros Hi Hh. split.
  - unfold normal_at. cbn [transform plane_shape local_normal_at].
    rewrite Hi. cbn [unwrap bind]. unfold mul_tuple at 1 3, assert.
    rewrite Hh. reflexivity.
  - intros Et. unfold normal_at. cbn [transform plane_shape local_normal_at].
    rewrite Et, inverse_identity. cbn [unwrap bind]. rewrite mul_identity. cbn [bind].
    rewrite transpose_identity, mul_identity. cbn [bind].
    assert (M : magnitude (mkTuple 0 1 0 0) = 1) by (apply magnitude_unit; cbn; ring).
    unfold normalize. cbn [x y z w vector]. rewrite M. unfold vector. f_equal. f_equal; field.
Qed.

Lemma plane_normal_constant_witness :
  inverse (plane_transform (plane_new 0 IDENTITY_4X4 material_default)) = Some IDENTITY_4X4 /\
  height IDENTITY_4X4 = 4%nat /\
  normal_at (plane_shape (plane_new 0 IDENTITY_4X4 material_default)) (point 10 0 (-10))
    = Ok (vector 0 1 0).
Proof.
  assert (H1 : inverse (plane_transform (plane_new 0 IDENTITY_4X4 material_default))
               = Some IDENTITY_4X4) by exact inverse_identity.
  assert (H2 : height IDENTITY_4X4 = 4%nat) by reflexivity.
  split; [exact H1|]. split; [exact H2|].
  exact (proj2 (plane_normal_constant _ _ (point 10 0 (-10)) ZERO_POINT H1 H2) eq_refl).
Defined.

(** ** World *)

Lemma insert_by_t_perm (i : Intersection) (l : list Intersection) :
  Permutation (i :: l) (insert_by_t i l).
Proof.
  induction l as [|h tl IH]; cbn [insert_by_t]; [reflexivity|].
  destruct (Rleb (t i) (t h)); [reflexivity|].
  rewrite perm_swap. constructor. exact IH.
Qed.

Lemma insert_by_t_sorted (i : Intersection) (l : list Intersection) :
  Sorted (fun a b => t a <= t b) l -> Sorted (fun a b => t a <= t b) (insert_by_t i l).
Proof.
  induction l as [|h tl IH]; intros Hs; cbn [insert_by_t].
  - repeat constructor.
  - unfold Rleb at 1. destruct (Rle_dec (t i) (t h)) as [Hle|Hgt].
    + constructor; [exact Hs | constructor; exact Hle].
    + apply Sorted_inv in Hs as [Hs' Hh]. constructor; [apply IH; exact Hs'|].
      destruct tl as [|h2 tl2]; cbn [insert_by_t].
      * constructor. lra.
      * unfold Rleb. destruct (Rle_dec (t i) (t h2)); constructor; [lra|].
        inversion Hh; assumption.
Qed.

Lemma sort_by_t_spec (l : list Intersection) :
  Permutation l (sort_by_t l) /\ Sorted (fun a b => t a <= t b) (sort_by_t l).
Proof.
  unfold sort_by_t. induction l as [|a l [IHp IHs]]; cbn [fold_right].
  - split; constructor.
  - split.
    + eapply perm_trans; [apply perm_skip, IHp | apply insert_by_t_perm].
    + apply insert_by_t_sorted, IHs.
Qed.

Lemma mapM_Forall2 {A B : Type} (f : A -> Result B) (l : list A) (bs : list B) :
  mapM f l = Ok bs -> Forall2 (fun a b => f a = Ok b) l bs.
Proof.
  revert bs; induction l as [|a l IH]; intros bs H; cbn in H.
  - injection H as <-. constructor.
  - destruct (f a) as [b|] eqn:Ea; [|discriminate]. cbn in H.
    destruct (mapM f l) as [bs'|] eqn:E; [|discriminate]. cbn in H. injection H as <-.
    constructor; [exact Ea | apply IH; reflexivity].
Qed.

Lemma mapM_panic {A B : Type} (f : A -> Result B) (l : list A) (a : A) :
  In a l -> f a = Panic -> mapM f l = Panic.
Proof.
  induction l as [|h l IH]; intros Hin Hf; [destruct Hin|].
  cbn [mapM]. destruct Hin as [<-|Hin].
  - rewrite Hf. reflexivity.
  - destruct (f h); cbn [bind]; [|reflexivity]. rewrite (IH Hin Hf). reflexivity.
Qed.

Lemma Forall2_in_r {A B : Type} (P : A -> B -> Prop) (l : list A) (bs : list B) (b : B) :
  Forall2 P l bs -> In b bs -> exists a, In a l /\ P a b.
Proof.
  induction 1 as [|a b' l bs Hp _ IH]; intros Hin; [destruct Hin|].
  destruct Hin as [<-|Hin].
  - exists a. split; [now left | exact Hp].
  - destruct (IH Hin) as [a' [Ha' Hp']]. exists a'. split; [now right | exact Hp'].
Qed.

Lemma intersect_object (s : Shape) (r : Ray) (o : option (list Intersection)) :
  intersect s r = Ok o ->
  Forall (fun i => object i = s) (match o with Some v => v | None => [] end).
Proof.
  unfold intersect. destruct (unwrap _); cbn [bind]; [|discriminate].
  destruct (ray_transform _ _); cbn [bind]; [|discriminate].
  intros H; injection H as <-.
  destruct (local_interception s _) as [ts|]; cbn [option_map]; [|constructor].
  apply Forall_forall. intros i Hi. apply in_map_iff in Hi as [tv [<- _]]. reflexivity.
Qed.

(** [World::intersect_world] gathers the intersections of every object
    and sorts them by [t]: the result is in non-decreasing [t] order, is a
    rearrangement of the objects' own intersections (a missed object
    contributes none), and reports only objects of the world. If one
    object's [intersect] panics (a transform without inverse), so does
    [intersect_world]. *)
Theorem intersect_world_sorted (wo : World) (r : Ray) :
  (forall xs, intersect_world wo r = Ok xs ->
    Sorted (fun a b => t a <= t b) xs /\
    Forall (fun i => In (object i) (objects wo)) xs /\
    exists xss,
      Forall2 (fun s xs_s => exists o, intersect s r = Ok o /\
                 xs_s = match o with Some v => v | None => [] end) (objects wo) xss /\
      Permutation (concat xss) xs) /\
  ((exists s, In s (objects wo) /\ intersect s r = Panic) -> intersect_world wo r = Panic).
Proof.
  split.
  - intros xs H. unfold intersect_world in H.
    destruct (mapM _ (objects wo)) as [xss|] eqn:Em; cbn [bind] in H; [|discriminate].
    injection H as <-. apply mapM_Forall2 in Em.
    assert (F : Forall2 (fun s xs_s => exists o, intersect s r = Ok o /\
                 xs_s = match o with Some v => v | None => [] end) (objects wo) xss).
    { eapply Forall2_impl; [|exact Em]. intros s xs_s Hs.
      cbv beta in Hs. destruct (intersect s r) as [o|]; cbn [bind] in Hs; [|discriminate Hs].
      exists o. split; [reflexivity|]. injection Hs as <-. reflexivity. }
    destruct (sort_by_t_spec (concat xss)) as [Hp Hs].
    split; [exact Hs|]. split.
    + apply Forall_forall. intros i Hi.
      apply (Permutation_in _ (Permutation_sym Hp)) in Hi. apply in_concat in Hi as [xs_s [Hx Hi]].
      destruct (Forall2_in_r _ _ _ _ F Hx) as [s [Hs_in [o [Ho ->]]]].
      pose proof (intersect_object s r o Ho) as Fo.
      rewrite Forall_forall in Fo. rewrite (Fo i Hi). exact Hs_in.
    + exists xss. split; [exact F | exact Hp].
  - intros [s [Hin Hs]]. unfold intersect_world.
    rewrite (mapM_panic _ _ s Hin); [reflexivity|]. rewrite Hs. reflexivity.
Qed.

Lemma hit_all_negative (xs : list Intersection) :
  Forall (fun i => t i < 0) xs -> hit xs = None.
Proof.
  intros H. unfold hit.
  replace (filter _ xs) with (@nil Intersection); [reflexivity|].
  induction H as [|i xs Hi _ IH]; [reflexivity|].
  cbn [filter]. rewrite Rleb_false by exact Hi. exact IH.
Qed.

Lemma colour_at_no_hit (wo : World) (r : Ray) (xs : list Intersection) :
  intersect_world wo r = Ok xs -> Forall (fun i => t i < 0) xs -> colour_at wo r = Ok BLACK.
Proof.
  intros H Hn. unfold colour_at. rewrite H. cbn [bind]. rewrite hit_all_negative by exact Hn.
  reflexivity.
Qed.

Lemma colour_at_empty (ls : list PointLight) (r : Ray) :
  colour_at (mkWorld [] ls) r = Ok BLACK.
Proof. reflexivity. Qed.

(** [World::colour_at] is black when the ray hits nothing in front of its
    origin: every intersection has a negative [t] (lies behind the ray),
    or the world has no objects, whatever its lights. *)
Theorem colour_at_black (wo : World) (r : Ray) :
  (forall xs, intersect_world wo r = Ok xs -> Forall (fun i => t i < 0) xs ->
     colour_at wo r = Ok BLACK) /\
  (objects wo = [] -> colour_at wo r = Ok BLACK).
Proof.
  split.
  - intros xs. apply colour_at_no_hit.
  - intros Ho. destruct wo as [os ls]. cbn in Ho. subst os. apply colour_at_empty.
Qed.

Lemma sphere_local_away : sphere_local (mkRay (point 0 0 5) (vector 0 0 1)) = Some [-6; -4].
Proof.
  unfold sphere_local, dot, tsub, point, vector. cbn [origin direction x y z w].
  match goal with |- context [sqrt ?d] => replace d with (2 ^ 2) by ring end.
  rewrite sqrt_pow2 by lra. unfold Rltb. rdec.
  f_equal. f_equal; [|f_equal]; field.
Qed.

Lemma intersect_world_away :
  intersect_world (mkWorld [sphere0] [light0]) (mkRay (point 0 0 5) (vector 0 0 1))
    = Ok [mkIntersection (-6) sphere0; mkIntersection (-4) sphere0].
Proof.
  unfold intersect_world. cbn [objects mapM].
  unfold intersect, sphere0, sphere_shape, sphere_new. cbn [transform sphere_transform].
  rewrite inverse_identity. cbn [unwrap bind].
  rewrite ray_transform_identity by reflexivity. cbn [bind local_interception].
  rewrite sphere_local_away. cbn [option_map map bind concat app sort_by_t fold_right insert_by_t].
  unfold Rleb. cbn [t]. rdec. reflexivity.
Qed.

(** A ray from [(0, 0, 5)] pointing away from the unit sphere at the
    origin meets it only behind its origin, at [t = -6] and [t = -4]. *)
Lemma colour_at_black_witness :
  intersect_world (mkWorld [sphere0] [light0]) (mkRay (point 0 0 5) (vector 0 0 1))
    = Ok [mkIntersection (-6) sphere0; mkIntersection (-4) sphere0] /\
  colour_at (mkWorld [sphere0] [light0]) (mkRay (point 0 0 5) (vector 0 0 1)) = Ok BLACK.
Proof.
  split; [exact intersect_world_away|].
  apply (proj1 (colour_at_black _ _) _ intersect_world_away).
  repeat constructor; cbn [t]; lra.
Defined.

(** ** Rendering an empty world *)

Lemma list_set_repeat {A : Type} (a : A) (n i : nat) : list_set (repeat a n) i a = repeat a n.
Proof.
  revert i; induction n as [|n IH]; intros [|i]; cbn [repeat list_set]; try reflexivity.
  f_equal. apply IH.
Qed.

Lemma foldM_fixed {A B : Type} (f : A -> B -> Result A) (l : list B) (a : A) :
  (forall b, In b l -> f a b = Ok a) -> foldM f l a = Ok a.
Proof.
  induction l as [|b l IH]; intros H; [reflexivity|].
  rewrite foldM_cons, H by (now left). cbn [bind]. apply IH. intros; apply H; now right.
Qed.

Lemma camera_new_fields (h v : nat) (fov : R) (cam : Camera.Camera) :
  camera_new h v fov = Ok cam ->
  Camera.hsize cam = h /\ Camera.vsize cam = v /\ Camera.inverse_transform cam = IDENTITY_4X4.
Proof.
  intros E. unfold camera_new, new_with_transform in E. rewrite inverse_identity in E.
  cbn [unwrap bind] in E. destruct (Rle_dec _ _); injection E as <-; auto.
Qed.

(** [Camera::render] of a world without objects, with a camera from
    [Camera::new]: every pixel is black, so the canvas is exactly the
    fresh [hsize] by [vsize] canvas, whatever the lights, when
    [hsize * vsize] does not overflow [usize]. *)
Theorem render_empty_world (h v : nat) (fov : R) (ls : list PointLight) (cam : Camera.Camera) :
  (Z.of_nat h * Z.of_nat v < usize_modulus)%Z ->
  camera_new h v fov = Ok cam -> Camera.render cam (mkWorld [] ls) = Ok (Canvas.new h v).
Proof.
  intros Hb E. destruct (camera_new_fields h v fov cam E) as [Hh [Hv Hi]].
  unfold Camera.render. rewrite Hh, Hv.
  apply foldM_fixed. intros px Hpx. apply foldM_fixed. intros py Hpy.
  apply in_seq in Hpx, Hpy.
  unfold Camera.pixel_colour.
  destruct (ray_for_pixel_at_origin cam px py Hi) as [R _]. rewrite R. cbn [bind].
  rewrite colour_at_empty. cbn [bind].
  unfold Canvas.set, Canvas.new. cbn [Canvas.width Canvas.height Canvas.data].
  rewrite repeat_length, usize_mul_small, make_index_small
    by (try apply (pixel_index_bound _ v); try assumption; lia).
  replace (h * py + px <? h * v)%nat with true by (symmetry; apply Nat.ltb_lt; nia).
  rewrite list_set_repeat. reflexivity.
Qed.

Lemma render_empty_world_witness :
  (Z.of_nat 4 * Z.of_nat 3 < usize_modulus)%Z /\
  exists cam, camera_new 4 3 (PI / 3) = Ok cam /\
    Camera.render cam (mkWorld [] [light0]) = Ok (Canvas.new 4 3).
Proof.
  assert (Hb : (Z.of_nat 4 * Z.of_nat 3 < usize_modulus)%Z) by reflexivity.
  split; [exact Hb|].
  destruct (camera_new 4 3 (PI / 3)) as [cam|] eqn:E.
  - exists cam. split; [reflexivity|].
    exact (render_empty_world 4 3 (PI / 3) [light0] cam Hb E).
  - exfalso. unfold camera_new, new_with_transform in E. rewrite inverse_identity in E.
    cbn [unwrap bind] in E. destruct (Rle_dec _ _); discriminate E.
Defined.

(** ** Lighting (materials.rs) *)

Lemma cadd_black (c : Colour) : cadd c BLACK = c.
Proof. destruct c; unfold cadd, BLACK; cbn [red green blue]; f_equal; ring. Qed.

Lemma powf_one (s : R) : powf 1 s = 1.
Proof.
  unfold powf. destruct (Rlt_dec 0 1) as [_|H]; [|lra].
  unfold Rpower. rewrite ln_1, Rmult_0_r. apply exp_0.
Qed.

(** [Material::lighting] with the light behind the surface (the light
    vector makes a negative dot product with the normal) gives the
    ambient term alone: [effective_colour * ambient], no diffuse and no
    specular light, wherever the eye is. *)
Theorem lighting_src_light_behind (m : Material) (l : PointLight) (pt eye_vec normal_vec : Tuple) :
  dot (normalize (tsub (position l) pt)) normal_vec < 0 ->
  lighting_src m l pt eye_vec normal_vec = cscale (cmul (colour m) (intensity l)) (ambient m).
Proof.
  intros H. unfold lighting_src. cbv zeta. unfold Rltb at 1.
  destruct (Rlt_dec (dot (normalize (tsub (position l) pt)) normal_vec) 0) as [_|Hn];
    [|contradiction].
  cbv beta iota. rewrite !cadd_black. reflexivity.
Qed.

(** [Material::lighting] with the eye and the light both straight along
    the unit normal: the diffuse term is at full strength and the
    reflection points at the eye, so the colour is
    [effective_colour * (ambient + diffuse) + intensity * specular]
    whatever the shininess. *)
Theorem lighting_src_head_on (m : Material) (l : PointLight) (pt n : Tuple) :
  normalize (tsub (position l) pt) = n -> dot n n = 1 ->
  lighting_src m l pt n n =
    cadd (cscale (cmul (colour m) (intensity l)) (ambient m + diffuse m))
         (cscale (intensity l) (specular m)).
Proof.
  intros Hl Hn.
  assert (Hr : dot (reflect (tneg n) n) n = 1).
  { transitivity (- dot n n + 2 * dot n n * dot n n);
      [|rewrite Hn; ring].
    destruct n; unfold reflect, tneg, tsub, tscale, dot; cbn [x y z w]; ring. }
  unfold lighting_src. cbv zeta. rewrite Hl, Hn. rewrite Hr, powf_one. unfold Rltb.
  destruct (Rlt_dec 1 0) as [Hc|_]; [lra|]. cbv beta iota.
  destruct (colour m) as [cr cg cb], (intensity l) as [ir ig ib].
  unfold cadd, cscale, cmul; cbn [red green blue]. f_equal; ring.
Qed.

Lemma normalize_0_0_10 (s : R) :
  s * s = 1 -> normalize (tsub (point 0 0 (10 * s)) ZERO_POINT) = vector 0 0 s.
Proof.
  intros Hs. unfold normalize.
  assert (M : magnitude (tsub (point 0 0 (10 * s)) ZERO_POINT) = 10).
  { unfold magnitude, tsub, point, ZERO_POINT, point; cbn [x y z w].
    replace ((0 - 0) ^ 2 + (0 - 0) ^ 2 + (10 * s - 0) ^ 2 + (1 - 1) ^ 2) with (10 ^ 2)
      by (simpl; nra).
    apply sqrt_pow2. lra. }
  rewrite M. unfold tsub, point, vector, ZERO_POINT, point; cbn [x y z w].
  f_equal; field.
Qed.

(** The book's tests "eye between light and surface" (colour [1.9]) and
    "light behind the surface" (colour [0.1]), with the default material. *)
Lemma lighting_src_head_on_witness :
  normalize (tsub (position (mkPointLight WHITE (point 0 0 (-10)))) ZERO_POINT) = vector 0 0 (-1) /\
  dot (vector 0 0 (-1)) (vector 0 0 (-1)) = 1 /\
  lighting_src material_default (mkPointLight WHITE (point 0 0 (-10))) ZERO_POINT
    (vector 0 0 (-1)) (vector 0 0 (-1)) = mkColour (19 / 10) (19 / 10) (19 / 10).
Proof.
  assert (H1 : normalize (tsub (position (mkPointLight WHITE (point 0 0 (-10)))) ZERO_POINT)
               = vector 0 0 (-1)).
  { cbn [position]. replace (-10) with (10 * -1) by ring. apply normalize_0_0_10. ring. }
  assert (H2 : dot (vector 0 0 (-1)) (vector 0 0 (-1)) = 1) by (unfold dot, vector; cbn; ring).
  split; [exact H1|]. split; [exact H2|].
  rewrite (lighting_src_head_on _ _ _ _ H1 H2).
  unfold cadd, cscale, cmul, material_default, WHITE; cbn [red green blue colour intensity
    ambient diffuse specular]. f_equal; field.
Defined.

Lemma lighting_src_light_behind_witness :
  dot (normalize (tsub (position (mkPointLight WHITE (point 0 0 10))) ZERO_POINT))
      (vector 0 0 (-1)) < 0 /\
  lighting_src material_default (mkPointLight WHITE (point 0 0 10)) ZERO_POINT
    (vector 0 0 (-1)) (vector 0 0 (-1)) = mkColour (1 / 10) (1 / 10) (1 / 10).
Proof.
  assert (H : dot (normalize (tsub (position (mkPointLight WHITE (point 0 0 10))) ZERO_POINT))
                  (vector 0 0 (-1)) < 0).
  { cbn [position]. replace 10 with (10 * 1) by ring. rewrite normalize_0_0_10 by ring.
    unfold dot, vector; cbn [x y z w]. lra. }
  split; [exact H|].
  rewrite (lighting_src_light_behind _ _ _ _ _ H).
  unfold cscale, cmul, material_default, WHITE; cbn [red green blue colour intensity ambient].
  f_equal; field.
Defined.

(** ** Sphere normals *)

Lemma mul_translation (a b c : R) (p : Tuple) :
  mul_tuple (translation a b c) p =
    Ok (mkTuple (x p + a * w p) (y p + b * w p) (z p + c * w p) (w p)).
Proof. destruct p as [px py pz pw]. vm_compute. f_equal. f_equal; ring. Qed.

Lemma mul_transpose_translation (a b c : R) (p : Tuple) :
  exists q, mul_tuple (transpose (translation a b c)) p = Ok q /\
    x q = x p /\ y q = y p /\ z q = z p.
Proof.
  destruct p as [px py pz pw]. eexists. split; [vm_compute; reflexivity|].
  cbn [x y z]. split; [|split]; ring.
Qed.

(** [Shape::normal_at] on a sphere moved by [Matrix::translation(a, b,
    c)]: the normal at a point is the unit vector from the centre
    [(a, b, c)] to the point; for the sphere of [Sphere::new] at a point
    of its surface it is the point itself read as a vector. *)
Theorem sphere_normal_translated (u : nat) (a b c : R) (mat : Material) (pt : Tuple) :
  w pt = 1 ->
  normal_at (sphere_shape (mkSphere u (translation a b c) mat)) pt =
    Ok (normalize (vector (x pt - a) (y pt - b) (z pt - c))) /\
  (x pt ^ 2 + y pt ^ 2 + z pt ^ 2 = 1 ->
   normal_at (sphere_shape (sphere_new u)) pt = Ok (vector (x pt) (y pt) (z pt))).
Proof.
  intros Hw. split.
  - unfold normal_at. cbn [transform sphere_shape sphere_transform local_normal_at].
    rewrite translation_inverse_eq. cbn [unwrap bind]. rewrite mul_translation. cbn [bind].
    destruct (mul_transpose_translation (- a) (- b) (- c)
      (tsub (mkTuple (x pt + - a * w pt) (y pt + - b * w pt) (z pt + - c * w pt) (w pt)) ZERO))
      as [q [Hq [Hx [Hy Hz]]]].
    rewrite Hq. cbn [bind]. rewrite Hx, Hy, Hz. unfold tsub, ZERO, vector; cbn [x y z w].
    rewrite Hw. f_equal. f_equal. f_equal; ring.
  - intros Hs. unfold normal_at, sphere_new. cbn [transform sphere_shape sphere_transform local_normal_at].
    rewrite inverse_identity. cbn [unwrap bind]. rewrite mul_identity. cbn [bind].
    rewrite transpose_identity, mul_identity. cbn [bind].
    assert (M : magnitude (mkTuple (x (tsub pt ZERO)) (y (tsub pt ZERO)) (z (tsub pt ZERO)) 0) = 1).
    { apply magnitude_unit. unfold tsub, ZERO; cbn [x y z w]. rewrite <- Hs. ring. }
    unfold normalize. rewrite M. unfold tsub, ZERO, vector; cbn [x y z w]. f_equal. f_equal; field.
Qed.

Lemma sphere_normal_translated_witness :
  w (point 0 (1 / 2) 0) = 1 /\
  normal_at (sphere_shape (mkSphere 0 (translation 0 1 0) material_default)) (point 0 (1 / 2) 0) =
    Ok (normalize (vector 0 (- (1 / 2)) 0)).
Proof.
  assert (H : w (point 0 (1 / 2) 0) = 1) by reflexivity.
  split; [exact H|].
  rewrite (proj1 (sphere_normal_translated 0 0 1 0 material_default _ H)).
  unfold point. cbn [x y z]. f_equal. f_equal. unfold vector. f_equal; lra.
Defined.

(** ** Shadows over all lights *)

Lemma mapM_existsb {A : Type} (f : A -> Result bool) (l : list A) (bs : list bool) :
  mapM f l = Ok bs ->
  (existsb (fun b => b) bs = true <-> exists a, In a l /\ f a = Ok true).
Proof.
  intros H. apply mapM_Forall2 in H.
  induction H as [|a b l bs Hab _ IH]; cbn [existsb].
  - split; [discriminate | intros [a [[] _]]].
  - rewrite orb_true_iff, IH. split.
    + intros [->|[a' [Hin Ha']]]; [exists a; split; [now left | exact Hab]|].
      exists a'. split; [now right | exact Ha'].
    + intros [a' [[<-|Hin] Ha']].
      * left. rewrite Hab in Ha'. injection Ha' as ->. reflexivity.
      * right. exists a'. split; [exact Hin | exact Ha'].
Qed.

Lemma mapM_ok {A B : Type} (f : A -> Result B) (l : list A) :
  (forall a, In a l -> exists b, f a = Ok b) -> exists bs, mapM f l = Ok bs.
Proof.
  induction l as [|a l IH]; intros H; [exists []; reflexivity|].
  destruct (H a (or_introl eq_refl)) as [b Hb].
  destruct IH as [bs Hbs]; [intros; apply H; now right|].
  exists (b :: bs). cbn [mapM]. rewrite Hb. cbn [bind]. rewrite Hbs. reflexivity.
Qed.



